(** * Digital media catalog: persistence and business layers

    A shallow embedding of [persistence.js] and [business.js].

    - The three JSON documents are the fields of a [Disk]; a photo, an
      album and a user are records with the fields of the JSON objects.
    - Every exported function of the two files is [async] and talks to
      the files only through [readJson] and [writeJson]; it is embedded
      as a state-passing computation [Async A := Disk -> A * Disk], and
      [await x <- m ;; k] is the source's [const x = await m; k].
    - [JSON.parse] builds fresh objects at every read, so the records
      are plain values: no two reads share an object.
    - Ids are JavaScript numbers holding integers, embedded as [Z];
      [===] on them is [Z.eqb], and on strings it is [String.eqb].
    - [String.prototype.toLowerCase] is a parameter [toLowerCase] of the
      development; [ascii_toLowerCase] is its restriction to ASCII
      strings, used to run the functions on concrete inputs. *)

From Stdlib Require Import ZArith List String Ascii Bool Lia.
Import ListNotations.

Local Open Scope Z_scope.
Local Open Scope string_scope.
Local Open Scope list_scope.

(** ** Data model *)

Module User.
Record t : Type := mk { id : Z; username : string; password : string }.
End User.

Module Album.
Record t : Type := mk { id : Z; name : string }.
End Album.

(** The [albums] property of a photo object: missing from the object,
    present with a value that is not an array (kept as its JSON text),
    or an array of album ids. *)
Inductive AlbumsField : Type :=
| AlbumsMissing
| AlbumsNotArray (json : string)
| AlbumsArray (ids : list Z).

Module Photo.
Record t : Type := mk {
  id : Z;
  owner : Z;
  filename : string;
  title : string;
  description : string;
  date : string;
  albums : AlbumsField;
  tags : list string
}.

(** [p.title = title; p.description = description] *)
Definition assignDetails (title description : string) (p : t) : t :=
  mk (id p) (owner p) (filename p) title description (date p)
     (albums p) (tags p).

(** [p.tags.push(tag)] *)
Definition pushTag (tag : string) (p : t) : t :=
  mk (id p) (owner p) (filename p) (title p) (description p) (date p)
     (albums p) (tags p ++ [tag]).
End Photo.

(** The reduced user view [{ id, username }] returned by [login]. *)
Module UserView.
Record t : Type := mk { id : Z; username : string }.
End UserView.

(** ** The files and the [async] computations over them *)

(** The parsed content of the three documents, and the number of times
    [photos.json] has been overwritten (a ghost counter: it tells a call
    that wrote the same content again from a call that did not write). *)
Record Disk : Type := mkDisk {
  USER_FILE : list User.t;
  ALBUM_FILE : list Album.t;
  PHOTO_FILE : list Photo.t;
  photoWrites : nat
}.

Definition Async (A : Type) : Type := Disk -> A * Disk.

Definition ret {A : Type} (a : A) : Async A := fun d => (a, d).

Definition bind {A B : Type} (m : Async A) (k : A -> Async B) : Async B :=
  fun d => let (a, d') := m d in k a d'.

Notation "'await' x <- m ;; k" := (bind m (fun x => k))
  (at level 61, x name, m at next level, right associativity).

(** The value and the final disk of a computation started on [d]. *)
Definition result {A : Type} (m : Async A) (d : Disk) : A := fst (m d).
Definition after {A : Type} (m : Async A) (d : Disk) : Disk := snd (m d).

(** [includes] of an array of strings, and of an array of numbers. *)
Definition includesStr (t : string) (l : list string) : bool :=
  existsb (String.eqb t) l.

Definition includesNum (n : Z) (l : list Z) : bool :=
  existsb (Z.eqb n) l.

(** ASCII lower-casing: [A]..[Z] go to [a]..[z], every other character
    stays. It agrees with [toLowerCase] on ASCII strings. *)
Definition ascii_lower (c : ascii) : ascii :=
  let n := nat_of_ascii c in
  if (Nat.leb 65 n && Nat.leb n 90)%bool then ascii_of_nat (n + 32) else c.

Fixpoint ascii_toLowerCase (s : string) : string :=
  match s with
  | EmptyString => EmptyString
  | String c s' => String (ascii_lower c) (ascii_toLowerCase s')
  end.

(** ** persistence.js *)

Module persistence.

(** [readJson(USER_FILE)], [readJson(ALBUM_FILE)], [readJson(PHOTO_FILE)] *)
Definition readUsers : Async (list User.t) := fun d => (USER_FILE d, d).
Definition getAllAlbums : Async (list Album.t) := fun d => (ALBUM_FILE d, d).
Definition getAllPhotos : Async (list Photo.t) := fun d => (PHOTO_FILE d, d).

(** [writeJson(PHOTO_FILE, photoList)] *)
Definition saveAllPhotos (photoList : list Photo.t) : Async unit :=
  fun d => (tt, mkDisk (USER_FILE d) (ALBUM_FILE d) photoList
                       (S (photoWrites d))).

Definition getUserByUsername (username : string) : Async (option User.t) :=
  await users <- readUsers ;;
  ret (find (fun u => User.username u =? username) users).

Definition getAlbumById (albumId : Z) : Async (option Album.t) :=
  await albums <- getAllAlbums ;;
  ret (find (fun a => (Album.id a =? albumId)%Z) albums).

Definition getPhotoById (photoId : Z) : Async (option Photo.t) :=
  await photos <- getAllPhotos ;;
  ret (find (fun p => (Photo.id p =? photoId)%Z) photos).

(** The loop shared by [updatePhotoById] and [addTagToPhoto]:
    [for (const p of photos) if (p.id === photoId) { mutate p;
    updated = true; break; }]. It returns the array after the loop and
    the flag [updated]. *)
Fixpoint mutateFirst (photoId : Z) (mutate : Photo.t -> Photo.t)
    (photos : list Photo.t) : list Photo.t * bool :=
  match photos with
  | [] => ([], false)
  | p :: rest =>
      if (Photo.id p =? photoId)%Z then (mutate p :: rest, true)
      else let (rest', updated) := mutateFirst photoId mutate rest in
           (p :: rest', updated)
  end.

Definition updatePhotoById (photoId : Z) (title description : string)
    : Async bool :=
  await photos <- getAllPhotos ;;
  let (photos', updated) :=
    mutateFirst photoId (Photo.assignDetails title description) photos in
  await _ <- (if updated then saveAllPhotos photos' else ret tt) ;;
  ret updated.

Definition addTagToPhoto (photoId : Z) (tag : string) : Async bool :=
  await photos <- getAllPhotos ;;
  let (photos', updated) :=
    mutateFirst photoId (Photo.pushTag tag) photos in
  await _ <- (if updated then saveAllPhotos photos' else ret tt) ;;
  ret updated.

(** [Array.isArray(p.albums) && p.albums.includes(albumId)] *)
Definition inAlbum (albumId : Z) (p : Photo.t) : bool :=
  match Photo.albums p with
  | AlbumsArray ids => includesNum albumId ids
  | AlbumsMissing | AlbumsNotArray _ => false
  end.

Definition listPhotosInAlbum (albumId : Z) : Async (list Photo.t) :=
  await photos <- getAllPhotos ;;
  ret (filter (inAlbum albumId) photos).

Section CaseMapping.
Variable toLowerCase : string -> string.

Definition getAlbumByName (name : string) : Async (option Album.t) :=
  await albums <- getAllAlbums ;;
  let n := toLowerCase name in
  ret (find (fun a => toLowerCase (Album.name a) =? n) albums).
End CaseMapping.

End persistence.

(** ** business.js *)

(** The objects [{ ok, error?, skipped? }] returned by the two mutating
    operations; an absent property is [None]. *)
Record Result : Type := mkResult {
  ok : bool;
  error : option string;
  skipped : option bool
}.

(** What [getOwnedPhoto] returns: the photo, or [{ error }]. *)
Inductive OwnedPhoto : Type :=
| Owned (p : Photo.t)
| NotOwned (error : string).

(** What [getUserPhotosInAlbum] returns: [{ album, photos }] or
    [{ error }]. *)
Inductive AlbumPhotos : Type :=
| InAlbum (album : Album.t) (photos : list Photo.t)
| NoAlbum (error : string).

(** The three error messages of the business layer. *)
Definition NotFound : string := "Photo not found".
Definition AccessDenied : string := "Access denied (not your photo)".
Definition AlbumNotFound : string := "Album not found".

Module business.

Definition login (username password : string)
    : Async (option UserView.t) :=
  await user <- persistence.getUserByUsername username ;;
  match user with
  | Some user =>
      if User.password user =? password
      then ret (Some (UserView.mk (User.id user) (User.username user)))
      else ret None
  | None => ret None
  end.

Definition getOwnedPhoto (userId photoId : Z) : Async OwnedPhoto :=
  await p <- persistence.getPhotoById photoId ;;
  match p with
  | None => ret (NotOwned NotFound)
  | Some p =>
      if negb (Photo.owner p =? userId)%Z then ret (NotOwned AccessDenied)
      else ret (Owned p)
  end.

Definition updatePhotoDetails (userId photoId : Z)
    (title description : string) : Async Result :=
  await p <- persistence.getPhotoById photoId ;;
  match p with
  | None => ret (mkResult false (Some NotFound) None)
  | Some p =>
      if negb (Photo.owner p =? userId)%Z
      then ret (mkResult false (Some AccessDenied) None)
      else
        await ok <- persistence.updatePhotoById photoId title description ;;
        ret (mkResult ok None None)
  end.

Section CaseMapping.
Variable toLowerCase : string -> string.

(** The body of [addTag] after its first line, as a function of the
    photo [p] that the fetch returned. *)
Definition addTagFetched (userId photoId : Z) (tag : string)
    (p : option Photo.t) : Async Result :=
  match p with
  | None => ret (mkResult false (Some NotFound) None)
  | Some p =>
      if negb (Photo.owner p =? userId)%Z
      then ret (mkResult false (Some AccessDenied) None)
      else
        let t := toLowerCase tag in
        if includesStr t (Photo.tags p)
        then ret (mkResult true None (Some true))
        else
          await ok <- persistence.addTagToPhoto photoId t ;;
          ret (mkResult ok None None)
  end.

Definition addTag (userId photoId : Z) (tag : string) : Async Result :=
  await p <- persistence.getPhotoById photoId ;;
  addTagFetched userId photoId tag p.

Definition getUserPhotosInAlbum (userId : Z) (albumName : string)
    : Async AlbumPhotos :=
  await album <- persistence.getAlbumByName toLowerCase albumName ;;
  match album with
  | None => ret (NoAlbum AlbumNotFound)
  | Some album =>
      await all <- persistence.listPhotosInAlbum (Album.id album) ;;
      let mine := filter (fun p => (Photo.owner p =? userId)%Z) all in
      ret (InAlbum album mine)
  end.
End CaseMapping.

Fixpoint mapAlbumIdsToNames (albumIdList : list Z) : Async (list string) :=
  match albumIdList with
  | [] => ret []
  | aid :: rest =>
      await a <- persistence.getAlbumById aid ;;
      await names <- mapAlbumIdsToNames rest ;;
      ret (match a with
           | Some a => Album.name a :: names
           | None => names
           end)
  end.

End business.

(** ** Vocabulary of the specification *)

(** No record of [photos] has id [photoId]. *)
Definition absentId (photoId : Z) (photos : list Photo.t) : Prop :=
  forall q, In q photos -> Photo.id q <> photoId.

(** [p] is the first record of [photos] with id [photoId]: [pre] are the
    records before it, none of which has that id, and [post] the records
    after it (which may have that id again). *)
Definition firstWithId (photoId : Z) (photos pre : list Photo.t)
    (p : Photo.t) (post : list Photo.t) : Prop :=
  photos = pre ++ p :: post /\ absentId photoId pre /\ Photo.id p = photoId.

(** A photo is in album [albumId]: its [albums] field is an array that
    contains the id. *)
Definition memberOfAlbum (albumId : Z) (p : Photo.t) : Prop :=
  exists ids, Photo.albums p = AlbumsArray ids /\ In albumId ids.

(** The calls of the business layer, to state what holds after any of
    them. *)
Inductive Call : Type :=
| CallLogin (username password : string)
| CallGetOwnedPhoto (userId photoId : Z)
| CallUpdatePhotoDetails (userId photoId : Z) (title description : string)
| CallAddTag (userId photoId : Z) (tag : string)
| CallGetUserPhotosInAlbum (userId : Z) (albumName : string)
| CallMapAlbumIdsToNames (albumIdList : list Z).

(** The disk that a call leaves. *)
Definition exec (toLowerCase : string -> string) (c : Call) (d : Disk)
    : Disk :=
  match c with
  | CallLogin username password =>
      after (business.login username password) d
  | CallGetOwnedPhoto userId photoId =>
      after (business.getOwnedPhoto userId photoId) d
  | CallUpdatePhotoDetails userId photoId title description =>
      after (business.updatePhotoDetails userId photoId title description) d
  | CallAddTag userId photoId tag =>
      after (business.addTag toLowerCase userId photoId tag) d
  | CallGetUserPhotosInAlbum userId albumName =>
      after (business.getUserPhotosInAlbum toLowerCase userId albumName) d
  | CallMapAlbumIdsToNames albumIdList =>
      after (business.mapAlbumIdsToNames albumIdList) d
  end.

(** The tag list has no two values that are equal up to case. *)
Definition noCaseDuplicates (toLowerCase : string -> string)
    (tags : list string) : Prop :=
  NoDup (map toLowerCase tags).

(** Every value of the tag list is in lower case, as the data model has
    stored tags. *)
Definition allLowercase (toLowerCase : string -> string)
    (tags : list string) : Prop :=
  forall t, In t tags -> toLowerCase t = t.

(** The tag list holds lower-case values, pairwise distinct. *)
Definition lowercaseDistinct (toLowerCase : string -> string)
    (tags : list string) : Prop :=
  allLowercase toLowerCase tags /\ NoDup tags.

(** Every photo of the stored collection has a tag list with [P]. *)
Definition everyPhoto (P : list string -> Prop) (d : Disk) : Prop :=
  forall p, In p (PHOTO_FILE d) -> P (Photo.tags p).

(** The error with which [getOwnedPhoto] denied the photo, if it did. *)
Definition denial (r : OwnedPhoto) : option string :=
  match r with
  | Owned _ => None
  | NotOwned e => Some e
  end.

(** The first photo with id [photoId] exists and is owned by [userId]:
    the ownership check of the business layer passes. *)
Definition ownsFirst (userId photoId : Z) (photos : list Photo.t) : bool :=
  match find (fun p => (Photo.id p =? photoId)%Z) photos with
  | Some p => (Photo.owner p =? userId)%Z
  | None => false
  end.

(** The tags of the first photo with id [photoId], if there is one. *)
Definition firstTags (photoId : Z) (photos : list Photo.t) : list string :=
  match find (fun p => (Photo.id p =? photoId)%Z) photos with
  | Some p => Photo.tags p
  | None => []
  end.

(** ** A catalog to run the functions on *)

Definition photo7 : Photo.t :=
  Photo.mk 7 1 "tree.jpg" "Old" "" "2024-05-01T10:00:00Z"
           (AlbumsArray [1; 2]) ["tree"].

Definition photo8 : Photo.t :=
  Photo.mk 8 2 "sea.jpg" "Sea" "waves" "2024-06-01T10:00:00Z"
           AlbumsMissing [].

Definition photo9 : Photo.t :=
  Photo.mk 9 1 "hill.jpg" "Hill" "" "2024-07-01T10:00:00Z"
           (AlbumsNotArray "3") ["hill"].

(** A second record with id 7, owned by another user. *)
Definition photo7' : Photo.t :=
  Photo.mk 7 2 "copy.jpg" "Copy" "" "2024-08-01T10:00:00Z"
           (AlbumsArray [2]) ["tree"].

Definition demo : Disk :=
  mkDisk [User.mk 1 "alice" "pw1"; User.mk 2 "bob" "pw2"]
         [Album.mk 1 "Nature"; Album.mk 2 "Trips"]
         [photo7; photo8; photo9; photo7']
         0.

(** The catalog after another process has removed the records with
    id 7 from [photos.json]. *)
Definition demoWithout7 : Disk :=
  mkDisk (USER_FILE demo) (ALBUM_FILE demo) [photo8; photo9] 0.

(** A catalog whose seed data holds a tag with an upper-case letter. *)
Definition photo3 : Photo.t :=
  Photo.mk 3 1 "oak.jpg" "Oak" "" "2024-09-01T10:00:00Z"
           (AlbumsArray [1]) ["Tree"].

Definition demoMixedCase : Disk :=
  mkDisk (USER_FILE demo) (ALBUM_FILE demo) [photo3] 0.

(** ** Lemmas on the scans *)

Lemma find_id_None photoId photos :
  find (fun p => (Photo.id p =? photoId)%Z) photos = None <->
  absentId photoId photos.
Proof.
  unfold absentId. split.
  - intros Hnone q Hin Heq.
    pose proof (find_none _ _ Hnone q Hin) as Hq. cbv beta in Hq.
    apply Z.eqb_neq in Hq. contradiction.
  - intros Habs. induction photos as [|q rest IH]; [reflexivity|].
    cbn. destruct (Z.eqb_spec (Photo.id q) photoId) as [Heq|Hne].
    + exfalso. apply (Habs q); [now left | exact Heq].
    + apply IH. intros r Hr. apply Habs. now right.
Qed.

Lemma find_id_first photoId photos pre p post :
  firstWithId photoId photos pre p post ->
  find (fun q => (Photo.id q =? photoId)%Z) photos = Some p.
Proof.
  intros (-> & Habs & Hid). induction pre as [|q pre IH]; cbn.
  - now rewrite (proj2 (Z.eqb_eq _ _) Hid).
  - destruct (Z.eqb_spec (Photo.id q) photoId) as [Heq|Hne].
    + exfalso. apply (Habs q); [now left | exact Heq].
    + apply IH. intros r Hr. apply Habs. now right.
Qed.

Lemma find_id_Some photoId photos p :
  find (fun q => (Photo.id q =? photoId)%Z) photos = Some p ->
  exists pre post, firstWithId photoId photos pre p post.
Proof.
  induction photos as [|q rest IH]; cbn; [discriminate|].
  destruct (Z.eqb_spec (Photo.id q) photoId) as [Heq|Hne].
  - intros [= <-]. exists [], rest. repeat split; auto.
    intros r [].
  - intros Hfind. destruct (IH Hfind) as (pre & post & -> & Habs & Hid).
    exists (q :: pre), post. repeat split; auto.
    intros r [<-|Hr]; [exact Hne | now apply Habs].
Qed.

Lemma firstWithId_unique photoId photos pre p post pre' p' post' :
  firstWithId photoId photos pre p post ->
  firstWithId photoId photos pre' p' post' ->
  pre = pre' /\ p = p' /\ post = post'.
Proof.
  intros (-> & Habs & Hid) (Heq & Habs' & Hid').
  revert pre' Heq Habs'. induction pre as [|q pre IH]; intros [|q' pre'] Heq Habs'.
  - cbn in Heq. injection Heq as -> ->. auto.
  - cbn in Heq. injection Heq as -> ->.
    exfalso. apply (Habs' q'); [now left | exact Hid].
  - cbn in Heq. injection Heq as -> <-.
    exfalso. apply (Habs p'); [now left | exact Hid'].
  - cbn in Heq. injection Heq as -> Heq.
    destruct (IH (fun r Hr => Habs r (or_intror Hr)) pre' Heq
                 (fun r Hr => Habs' r (or_intror Hr))) as (-> & -> & ->).
    auto.
Qed.

Lemma absent_or_first photoId photos :
  absentId photoId photos \/
  exists pre p post, firstWithId photoId photos pre p post.
Proof.
  destruct (find (fun q => (Photo.id q =? photoId)%Z) photos) as [p|] eqn:Hf.
  - right. destruct (find_id_Some _ _ _ Hf) as (pre & post & H). eauto.
  - left. now apply find_id_None.
Qed.

Lemma mutateFirst_first photoId mutate photos pre p post :
  firstWithId photoId photos pre p post ->
  persistence.mutateFirst photoId mutate photos =
    (pre ++ mutate p :: post, true).
Proof.
  intros (-> & Habs & Hid). induction pre as [|q pre IH]; cbn.
  - now rewrite (proj2 (Z.eqb_eq _ _) Hid).
  - destruct (Z.eqb_spec (Photo.id q) photoId) as [Heq|Hne].
    + exfalso. apply (Habs q); [now left | exact Heq].
    + rewrite IH; [reflexivity|]. intros r Hr. apply Habs. now right.
Qed.

Lemma mutateFirst_absent photoId mutate photos :
  absentId photoId photos ->
  persistence.mutateFirst photoId mutate photos = (photos, false).
Proof.
  intros Habs. induction photos as [|q rest IH]; cbn; [reflexivity|].
  destruct (Z.eqb_spec (Photo.id q) photoId) as [Heq|Hne].
  - exfalso. apply (Habs q); [now left | exact Heq].
  - rewrite IH; [reflexivity|]. intros r Hr. apply Habs. now right.
Qed.

(** The first record with a given id keeps its place when it is mutated
    without changing its id. *)
Lemma firstWithId_mutated photoId photos pre p post p' :
  firstWithId photoId photos pre p post ->
  Photo.id p' = photoId ->
  firstWithId photoId (pre ++ p' :: post) pre p' post.
Proof. intros (_ & Habs & _) Hid. repeat split; assumption. Qed.

(** When ids are unique, every stored photo is the first with its id. *)
Lemma firstWithId_of_unique photos p :
  NoDup (map Photo.id photos) ->
  In p photos ->
  exists pre post, firstWithId (Photo.id p) photos pre p post.
Proof.
  intros Hnodup Hin.
  destruct (in_split _ _ Hin) as (pre & post & ->).
  exists pre, post. repeat split.
  intros q Hq Heq.
  rewrite map_app in Hnodup. cbn [map] in Hnodup.
  apply NoDup_remove_2 in Hnodup. apply Hnodup.
  apply in_or_app. left. rewrite <- Heq. now apply in_map.
Qed.

(** ** What each function computes on a disk *)

Ltac run :=
  unfold result, after,
    business.login, business.getOwnedPhoto, business.updatePhotoDetails,
    business.addTag, business.addTagFetched, business.getUserPhotosInAlbum,
    persistence.getUserByUsername, persistence.getAlbumById,
    persistence.getAlbumByName, persistence.getPhotoById,
    persistence.updatePhotoById, persistence.addTagToPhoto,
    persistence.listPhotosInAlbum, persistence.saveAllPhotos,
    persistence.readUsers, persistence.getAllAlbums,
    persistence.getAllPhotos, bind, ret in *;
  cbn beta iota zeta in *.

Lemma getPhotoById_run photoId d :
  persistence.getPhotoById photoId d =
    (find (fun p => (Photo.id p =? photoId)%Z) (PHOTO_FILE d), d).
Proof. reflexivity. Qed.

Lemma updatePhotoById_first photoId title description d pre p post :
  firstWithId photoId (PHOTO_FILE d) pre p post ->
  persistence.updatePhotoById photoId title description d =
    (true, mkDisk (USER_FILE d) (ALBUM_FILE d)
                  (pre ++ Photo.assignDetails title description p :: post)
                  (S (photoWrites d))).
Proof.
  intros Hfirst. run.
  now rewrite (mutateFirst_first _ _ _ _ _ _ Hfirst).
Qed.

Lemma updatePhotoById_absent photoId title description d :
  absentId photoId (PHOTO_FILE d) ->
  persistence.updatePhotoById photoId title description d = (false, d).
Proof. intros Habs. run. now rewrite (mutateFirst_absent _ _ _ Habs). Qed.

Lemma addTagToPhoto_first photoId tag d pre p post :
  firstWithId photoId (PHOTO_FILE d) pre p post ->
  persistence.addTagToPhoto photoId tag d =
    (true, mkDisk (USER_FILE d) (ALBUM_FILE d)
                  (pre ++ Photo.pushTag tag p :: post)
                  (S (photoWrites d))).
Proof.
  intros Hfirst. run.
  now rewrite (mutateFirst_first _ _ _ _ _ _ Hfirst).
Qed.

Lemma addTagToPhoto_absent photoId tag d :
  absentId photoId (PHOTO_FILE d) ->
  persistence.addTagToPhoto photoId tag d = (false, d).
Proof. intros Habs. run. now rewrite (mutateFirst_absent _ _ _ Habs). Qed.

Lemma getOwnedPhoto_run userId photoId d :
  business.getOwnedPhoto userId photoId d =
    (match find (fun p => (Photo.id p =? photoId)%Z) (PHOTO_FILE d) with
     | None => NotOwned NotFound
     | Some p => if (Photo.owner p =? userId)%Z then Owned p
                 else NotOwned AccessDenied
     end, d).
Proof.
  run. destruct (find _ (PHOTO_FILE d)) as [p|]; [|reflexivity].
  now destruct (Photo.owner p =? userId)%Z.
Qed.

(** ** The claims *)

(** C1. [getOwnedPhoto(u, p)] is a total trichotomy over the photo
    collection, and it leaves the files as they are: when no photo has
    id [p] it yields the [NotFound] error; when the first photo with id
    [p] has another owner than [u] it yields [AccessDenied]; when that
    photo is owned by [u] it returns the stored record; and one of the
    cases always applies. *)
Theorem getOwnedPhoto_trichotomy (d : Disk) (userId photoId : Z) :
  after (business.getOwnedPhoto userId photoId) d = d /\
  (absentId photoId (PHOTO_FILE d) ->
   result (business.getOwnedPhoto userId photoId) d = NotOwned NotFound) /\
  (forall pre p post,
     firstWithId photoId (PHOTO_FILE d) pre p post ->
     Photo.owner p <> userId ->
     result (business.getOwnedPhoto userId photoId) d
       = NotOwned AccessDenied) /\
  (forall pre p post,
     firstWithId photoId (PHOTO_FILE d) pre p post ->
     Photo.owner p = userId ->
     result (business.getOwnedPhoto userId photoId) d = Owned p) /\
  (absentId photoId (PHOTO_FILE d) \/
   exists pre p post, firstWithId photoId (PHOTO_FILE d) pre p post).
Proof.
  unfold result, after. rewrite getOwnedPhoto_run. cbn [fst snd].
  split; [reflexivity|]. split; [|split; [|split]].
  - intros Habs. now rewrite (proj2 (find_id_None _ _) Habs).
  - intros pre p post Hfirst Hne. rewrite (find_id_first _ _ _ _ _ Hfirst).
    destruct (Z.eqb_spec (Photo.owner p) userId); [contradiction|reflexivity].
  - intros pre p post Hfirst Heq. rewrite (find_id_first _ _ _ _ _ Hfirst).
    now rewrite (proj2 (Z.eqb_eq _ _) Heq).
  - apply absent_or_first.
Qed.

(** C10. When several records have the same id, every photo operation
    works on the first one in collection order: [getPhotoById] returns
    it, [getOwnedPhoto] checks its owner, and [updatePhotoById] and
    [addTagToPhoto] rewrite the collection with that record changed and
    the records before and after it, later ones with the same id
    included, as they were. *)
Theorem first_record_wins (d : Disk) (photoId : Z)
    (pre : list Photo.t) (p : Photo.t) (post : list Photo.t)
    (userId : Z) (title description tag : string) :
  firstWithId photoId (PHOTO_FILE d) pre p post ->
  result (persistence.getPhotoById photoId) d = Some p /\
  result (business.getOwnedPhoto userId photoId) d =
    (if (Photo.owner p =? userId)%Z then Owned p
     else NotOwned AccessDenied) /\
  result (persistence.updatePhotoById photoId title description) d = true /\
  PHOTO_FILE (after (persistence.updatePhotoById photoId title description) d)
    = pre ++ Photo.mk (Photo.id p) (Photo.owner p) (Photo.filename p)
                      title description (Photo.date p) (Photo.albums p)
                      (Photo.tags p) :: post /\
  result (persistence.addTagToPhoto photoId tag) d = true /\
  PHOTO_FILE (after (persistence.addTagToPhoto photoId tag) d)
    = pre ++ Photo.mk (Photo.id p) (Photo.owner p) (Photo.filename p)
                      (Photo.title p) (Photo.description p) (Photo.date p)
                      (Photo.albums p) (Photo.tags p ++ [tag]) :: post.
Proof.
  intros Hfirst. unfold result, after.
  rewrite getPhotoById_run, getOwnedPhoto_run,
    (updatePhotoById_first _ title description _ _ _ _ Hfirst),
    (addTagToPhoto_first _ tag _ _ _ _ Hfirst),
    (find_id_first _ _ _ _ _ Hfirst).
  cbn. repeat split; reflexivity.
Qed.

Lemma first_record_wins_witness :
  result (persistence.getPhotoById 7) demo = Some photo7 /\
  PHOTO_FILE (after (persistence.addTagToPhoto 7 "oak") demo)
    = [Photo.mk 7 1 "tree.jpg" "Old" "" "2024-05-01T10:00:00Z"
                (AlbumsArray [1; 2]) ["tree"; "oak"];
       photo8; photo9; photo7'].
Proof.
  assert (Hfirst : firstWithId 7 (PHOTO_FILE demo) [] photo7
                     [photo8; photo9; photo7']).
  { repeat split. intros q []. }
  pose proof (first_record_wins demo 7 [] photo7 [photo8; photo9; photo7']
                1 "New" "desc" "oak" Hfirst) as (Hget & _ & _ & _ & _ & Htag).
  split; [exact Hget | exact Htag].
Defined.

Lemma getOwnedPhoto_trichotomy_witness :
  result (business.getOwnedPhoto 1 5) demo = NotOwned NotFound /\
  result (business.getOwnedPhoto 2 7) demo = NotOwned AccessDenied /\
  result (business.getOwnedPhoto 1 7) demo = Owned photo7.
Proof.
  assert (Hfirst : firstWithId 7 (PHOTO_FILE demo) [] photo7
                     [photo8; photo9; photo7']).
  { repeat split. intros q []. }
  split; [|split].
  - apply (getOwnedPhoto_trichotomy demo 1 5).
    intros q [<-|[<-|[<-|[<-|[]]]]]; discriminate.
  - apply (proj1 (proj2 (proj2 (getOwnedPhoto_trichotomy demo 2 7)))
             [] photo7 [photo8; photo9; photo7'] Hfirst).
    discriminate.
  - apply (proj1 (proj2 (proj2 (proj2 (getOwnedPhoto_trichotomy demo 1 7))))
             [] photo7 [photo8; photo9; photo7'] Hfirst).
    reflexivity.
Defined.

(** The ownership check of the mutating operations passes exactly on the
    first record with the id, when its owner is the requester. *)
Lemma updatePhotoDetails_run userId photoId title description d :
  business.updatePhotoDetails userId photoId title description d =
    match find (fun p => (Photo.id p =? photoId)%Z) (PHOTO_FILE d) with
    | None => (mkResult false (Some NotFound) None, d)
    | Some p =>
        if (Photo.owner p =? userId)%Z
        then (mkResult
                (fst (persistence.updatePhotoById photoId title description d))
                None None,
              snd (persistence.updatePhotoById photoId title description d))
        else (mkResult false (Some AccessDenied) None, d)
    end.
Proof.
  unfold business.updatePhotoDetails, bind. rewrite getPhotoById_run.
  destruct (find _ (PHOTO_FILE d)) as [p|]; [|reflexivity].
  destruct (Photo.owner p =? userId)%Z; [|reflexivity].
  cbv beta iota delta [negb ret].
  now destruct (persistence.updatePhotoById photoId title description d).
Qed.

Lemma updatePhotoDetails_owned userId photoId title description d pre p post :
  firstWithId photoId (PHOTO_FILE d) pre p post ->
  Photo.owner p = userId ->
  business.updatePhotoDetails userId photoId title description d =
    (mkResult true None None,
     mkDisk (USER_FILE d) (ALBUM_FILE d)
            (pre ++ Photo.assignDetails title description p :: post)
            (S (photoWrites d))).
Proof.
  intros Hfirst Hown. rewrite updatePhotoDetails_run.
  rewrite (find_id_first _ _ _ _ _ Hfirst), (proj2 (Z.eqb_eq _ _) Hown).
  now rewrite (updatePhotoById_first _ title description _ _ _ _ Hfirst).
Qed.

(** C2. After a successful [updatePhotoDetails(u, id, T, D)] the photo
    collection is the prior one except that the first photo with that
    id, which [u] owns, has title [T] and description [D]; its other
    fields, every other photo record, the users and the albums are as
    before, and [getOwnedPhoto(u, id)] then returns that record. *)
Theorem updatePhotoDetails_roundtrip (d : Disk) (userId photoId : Z)
    (title description : string) :
  ok (result (business.updatePhotoDetails userId photoId title description) d)
    = true ->
  let d' :=
    after (business.updatePhotoDetails userId photoId title description) d in
  exists pre p post,
    firstWithId photoId (PHOTO_FILE d) pre p post /\
    Photo.owner p = userId /\
    let p' := Photo.mk (Photo.id p) (Photo.owner p) (Photo.filename p)
                       title description (Photo.date p) (Photo.albums p)
                       (Photo.tags p) in
    PHOTO_FILE d' = pre ++ p' :: post /\
    USER_FILE d' = USER_FILE d /\
    ALBUM_FILE d' = ALBUM_FILE d /\
    result (business.getOwnedPhoto userId photoId) d' = Owned p'.
Proof.
  intros Hok d'. subst d'. unfold result, after in *.
  rewrite updatePhotoDetails_run in Hok.
  destruct (find (fun p => (Photo.id p =? photoId)%Z) (PHOTO_FILE d))
    as [p|] eqn:Hfind; [|discriminate].
  destruct (Z.eqb_spec (Photo.owner p) userId) as [Hown|Hne]; [|discriminate].
  destruct (find_id_Some _ _ _ Hfind) as (pre & post & Hfirst).
  exists pre, p, post. split; [exact Hfirst|]. split; [exact Hown|].
  rewrite (updatePhotoDetails_owned _ _ title description _ _ _ _ Hfirst Hown).
  cbn [fst snd PHOTO_FILE USER_FILE ALBUM_FILE]. repeat split.
  rewrite getOwnedPhoto_run. cbn [fst PHOTO_FILE].
  destruct Hfirst as (_ & Habs & Hid).
  rewrite (find_id_first photoId _ pre
             (Photo.assignDetails title description p) post).
  - unfold Photo.assignDetails at 1. cbn [Photo.owner].
    now rewrite (proj2 (Z.eqb_eq _ _) Hown).
  - repeat split; assumption.
Qed.

Lemma updatePhotoDetails_roundtrip_witness :
  exists pre p post,
    firstWithId 7 (PHOTO_FILE demo) pre p post /\
    Photo.owner p = 1 /\
    let p' := Photo.mk (Photo.id p) (Photo.owner p) (Photo.filename p)
                       "New" "desc" (Photo.date p) (Photo.albums p)
                       (Photo.tags p) in
    PHOTO_FILE (after (business.updatePhotoDetails 1 7 "New" "desc") demo)
      = pre ++ p' :: post /\
    USER_FILE (after (business.updatePhotoDetails 1 7 "New" "desc") demo)
      = USER_FILE demo /\
    ALBUM_FILE (after (business.updatePhotoDetails 1 7 "New" "desc") demo)
      = ALBUM_FILE demo /\
    result (business.getOwnedPhoto 1 7)
           (after (business.updatePhotoDetails 1 7 "New" "desc") demo)
      = Owned p'.
Proof.
  apply (updatePhotoDetails_roundtrip demo 1 7 "New" "desc"). reflexivity.
Defined.

(** The example of the specification: the photo keeps its tags. *)
Example updatePhotoDetails_example :
  result (business.getOwnedPhoto 1 7)
         (after (business.updatePhotoDetails 1 7 "New" "desc") demo)
  = Owned (Photo.mk 7 1 "tree.jpg" "New" "desc" "2024-05-01T10:00:00Z"
                    (AlbumsArray [1; 2]) ["tree"]).
Proof. reflexivity. Qed.

Lemma includesStr_In t l : includesStr t l = true <-> In t l.
Proof.
  unfold includesStr. rewrite existsb_exists. split.
  - intros (x & Hin & Heq). apply String.eqb_eq in Heq. now subst.
  - intros Hin. exists t. split; [exact Hin | apply String.eqb_refl].
Qed.

Lemma includesStr_pushed t l : includesStr t (l ++ [t]) = true.
Proof. apply includesStr_In, in_or_app. right. now left. Qed.

Section AddTag.
Variable toLowerCase : string -> string.

Lemma addTagFetched_run userId photoId tag p d :
  business.addTagFetched toLowerCase userId photoId tag p d =
    match p with
    | None => (mkResult false (Some NotFound) None, d)
    | Some p =>
        if (Photo.owner p =? userId)%Z
        then
          if includesStr (toLowerCase tag) (Photo.tags p)
          then (mkResult true None (Some true), d)
          else
            (mkResult
               (fst (persistence.addTagToPhoto photoId (toLowerCase tag) d))
               None None,
             snd (persistence.addTagToPhoto photoId (toLowerCase tag) d))
        else (mkResult false (Some AccessDenied) None, d)
    end.
Proof.
  unfold business.addTagFetched.
  destruct p as [p|]; [|reflexivity].
  destruct (Photo.owner p =? userId)%Z; [|reflexivity].
  cbv beta iota zeta delta [negb].
  destruct (includesStr (toLowerCase tag) (Photo.tags p)); [reflexivity|].
  unfold bind, ret.
  now destruct (persistence.addTagToPhoto photoId (toLowerCase tag) d).
Qed.

Lemma addTag_run userId photoId tag d :
  business.addTag toLowerCase userId photoId tag d =
    business.addTagFetched toLowerCase userId photoId tag
      (find (fun p => (Photo.id p =? photoId)%Z) (PHOTO_FILE d)) d.
Proof. reflexivity. Qed.

(** The two outcomes of [addTag] once the ownership check passes. *)
Lemma addTag_owned userId photoId tag d pre p post :
  firstWithId photoId (PHOTO_FILE d) pre p post ->
  Photo.owner p = userId ->
  business.addTag toLowerCase userId photoId tag d =
    if includesStr (toLowerCase tag) (Photo.tags p)
    then (mkResult true None (Some true), d)
    else (mkResult true None None,
          mkDisk (USER_FILE d) (ALBUM_FILE d)
                 (pre ++ Photo.pushTag (toLowerCase tag) p :: post)
                 (S (photoWrites d))).
Proof.
  intros Hfirst Hown. rewrite addTag_run, addTagFetched_run.
  rewrite (find_id_first _ _ _ _ _ Hfirst), (proj2 (Z.eqb_eq _ _) Hown).
  destruct (includesStr (toLowerCase tag) (Photo.tags p)); [reflexivity|].
  now rewrite (addTagToPhoto_first _ (toLowerCase tag) _ _ _ _ Hfirst).
Qed.

(** C3. [addTag] is idempotent in its normalized tag: when [u] owns
    the photo that the id denotes, a second [addTag] whose tag has the
    same lower-case form as the first returns
    [{ ok: true, skipped: true }], does not write, and leaves the
    files, hence the stored tag lists, as the first call left them. *)
Theorem addTag_idempotent (d : Disk) (userId photoId : Z)
    (tag tag' : string) (pre : list Photo.t) (p : Photo.t)
    (post : list Photo.t) :
  firstWithId photoId (PHOTO_FILE d) pre p post ->
  Photo.owner p = userId ->
  toLowerCase tag' = toLowerCase tag ->
  let d1 := after (business.addTag toLowerCase userId photoId tag) d in
  let d2 := after (business.addTag toLowerCase userId photoId tag') d1 in
  result (business.addTag toLowerCase userId photoId tag') d1
    = mkResult true None (Some true) /\
  d2 = d1 /\
  photoWrites d2 = photoWrites d1 /\
  map Photo.tags (PHOTO_FILE d2) = map Photo.tags (PHOTO_FILE d1).
Proof.
  intros Hfirst Hown Hsame d1 d2.
  assert (Hsecond :
    business.addTag toLowerCase userId photoId tag' d1
      = (mkResult true None (Some true), d1)).
  { subst d1. unfold after.
    rewrite (addTag_owned _ _ tag _ _ _ _ Hfirst Hown).
    destruct (includesStr (toLowerCase tag) (Photo.tags p)) eqn:Hin;
      cbn [snd].
    - rewrite (addTag_owned _ _ tag' _ _ _ _ Hfirst Hown).
      now rewrite Hsame, Hin.
    - destruct Hfirst as (_ & Habs & Hid).
      rewrite (addTag_owned _ _ tag' _ pre
                 (Photo.pushTag (toLowerCase tag) p) post).
      + rewrite Hsame. cbn [Photo.pushTag Photo.tags].
        now rewrite includesStr_pushed.
      + repeat split; assumption.
      + exact Hown. }
  subst d2. unfold result, after. rewrite Hsecond. cbn [fst snd].
  repeat split.
Qed.

(** C5. Failure atomicity: when [addTag] or [updatePhotoDetails]
    returns the [NotFound] or the [AccessDenied] error, and when
    [addTag] returns [{ ok: true, skipped: true }], nothing was
    written: the disk after the call, its write counter included, is
    the disk before the call. *)
Theorem failure_atomicity (d : Disk) (userId photoId : Z)
    (tag title description : string) :
  (let r := result (business.addTag toLowerCase userId photoId tag) d in
   error r = Some NotFound \/ error r = Some AccessDenied \/
   (ok r = true /\ skipped r = Some true) ->
   after (business.addTag toLowerCase userId photoId tag) d = d) /\
  (let r := result (business.updatePhotoDetails userId photoId
                      title description) d in
   error r = Some NotFound \/ error r = Some AccessDenied ->
   after (business.updatePhotoDetails userId photoId title description) d
     = d).
Proof.
  unfold result, after.
  rewrite addTag_run, addTagFetched_run, updatePhotoDetails_run.
  destruct (find (fun p => (Photo.id p =? photoId)%Z) (PHOTO_FILE d))
    as [p|]; [|split; reflexivity].
  destruct (Photo.owner p =? userId)%Z; [|split; reflexivity].
  split.
  - destruct (includesStr (toLowerCase tag) (Photo.tags p)); [reflexivity|].
    cbn [fst snd error ok skipped].
    intros [H|[H|[_ H]]]; discriminate.
  - cbn [fst snd error]. intros [H|H]; discriminate.
Qed.

(** C8. When the photo collection that the write of [addTag] reads
    (on [d2]) is the collection that its ownership fetch read (on
    [d1]), the [{ ok: false }] outcome without an error is out of
    reach: once the fetch has returned a photo that [u] owns, the rest
    of [addTag] returns with [ok: true] and no error; so does [addTag]
    itself, where both reads are of the same disk. *)
Theorem addTag_write_finds_photo (d1 d2 : Disk) (userId photoId : Z)
    (tag : string) (p : Photo.t) :
  result (persistence.getPhotoById photoId) d1 = Some p ->
  Photo.owner p = userId ->
  PHOTO_FILE d2 = PHOTO_FILE d1 ->
  let r := result (business.addTagFetched toLowerCase userId photoId tag
                     (Some p)) d2 in
  (ok r = true /\ error r = None) /\
  ok (result (business.addTag toLowerCase userId photoId tag) d1) = true.
Proof.
  unfold result. rewrite getPhotoById_run. cbn [fst].
  intros Hfind Hown Hsame.
  destruct (find_id_Some _ _ _ Hfind) as (pre & post & Hfirst).
  split.
  - rewrite addTagFetched_run, (proj2 (Z.eqb_eq _ _) Hown).
    destruct (includesStr (toLowerCase tag) (Photo.tags p)).
    + split; reflexivity.
    + rewrite <- Hsame in Hfirst.
      rewrite (addTagToPhoto_first _ (toLowerCase tag) _ _ _ _ Hfirst).
      split; reflexivity.
  - rewrite (addTag_owned _ _ tag _ _ _ _ Hfirst Hown).
    now destruct (includesStr (toLowerCase tag) (Photo.tags p)).
Qed.

End AddTag.

Lemma addTag_idempotent_witness :
  let d1 := after (business.addTag ascii_toLowerCase 1 7 "Sunset") demo in
  result (business.addTag ascii_toLowerCase 1 7 "SUNSET") d1
    = mkResult true None (Some true) /\
  after (business.addTag ascii_toLowerCase 1 7 "SUNSET") d1 = d1 /\
  map Photo.tags (PHOTO_FILE d1) = [["tree"; "sunset"]; []; ["hill"]; ["tree"]].
Proof.
  assert (Hfirst : firstWithId 7 (PHOTO_FILE demo) [] photo7
                     [photo8; photo9; photo7']).
  { repeat split. intros q []. }
  pose proof (addTag_idempotent ascii_toLowerCase demo 1 7 "Sunset" "SUNSET"
                [] photo7 [photo8; photo9; photo7'] Hfirst eq_refl eq_refl)
    as (Hres & Hsame & _ & _).
  split; [exact Hres|]. split; [exact Hsame | reflexivity].
Defined.

Lemma failure_atomicity_witness :
  result (business.addTag ascii_toLowerCase 2 7 "Tree") demo
    = mkResult false (Some AccessDenied) None /\
  after (business.addTag ascii_toLowerCase 2 7 "Tree") demo = demo /\
  after (business.addTag ascii_toLowerCase 1 7 "Tree") demo = demo /\
  after (business.updatePhotoDetails 1 5 "New" "desc") demo = demo.
Proof.
  split; [reflexivity|]. split; [|split].
  - apply (proj1 (failure_atomicity ascii_toLowerCase demo 2 7
                    "Tree" "New" "desc")).
    right. left. reflexivity.
  - apply (proj1 (failure_atomicity ascii_toLowerCase demo 1 7
                    "Tree" "New" "desc")).
    right. right. split; reflexivity.
  - apply (proj2 (failure_atomicity ascii_toLowerCase demo 1 5
                    "Tree" "New" "desc")).
    left. reflexivity.
Defined.

Lemma addTag_write_finds_photo_witness :
  ok (result (business.addTagFetched ascii_toLowerCase 1 7 "Oak"
                (Some photo7)) demo) = true /\
  ok (result (business.addTag ascii_toLowerCase 1 7 "Oak") demo) = true.
Proof.
  pose proof (addTag_write_finds_photo ascii_toLowerCase demo demo 1 7 "Oak"
                photo7 eq_refl eq_refl eq_refl) as ((Hok & _) & Hok').
  split; [exact Hok | exact Hok'].
Defined.

(** Without the precondition of C8 the outcome can be reached: the
    fetch saw photo 7, the write reads a collection that lost it. *)
Example addTag_inconsistency_reachable :
  result (business.addTagFetched ascii_toLowerCase 1 7 "Oak" (Some photo7))
         demoWithout7
  = mkResult false None None.
Proof. reflexivity. Qed.

(** *** The tag invariant *)

Lemma after_login username password d :
  after (business.login username password) d = d.
Proof.
  run. destruct (find _ (USER_FILE d)) as [u|]; [|reflexivity].
  now destruct (User.password u =? password).
Qed.

Lemma after_getOwnedPhoto userId photoId d :
  after (business.getOwnedPhoto userId photoId) d = d.
Proof. unfold after. now rewrite getOwnedPhoto_run. Qed.

Lemma after_getUserPhotosInAlbum toLowerCase userId albumName d :
  after (business.getUserPhotosInAlbum toLowerCase userId albumName) d = d.
Proof. run. now destruct (find _ (ALBUM_FILE d)). Qed.

Lemma mapAlbumIdsToNames_run albumIdList d :
  business.mapAlbumIdsToNames albumIdList d =
    (flat_map (fun aid =>
       match find (fun a => (Album.id a =? aid)%Z) (ALBUM_FILE d) with
       | Some a => [Album.name a]
       | None => []
       end) albumIdList, d).
Proof.
  induction albumIdList as [|aid rest IH]; [reflexivity|].
  cbn [business.mapAlbumIdsToNames flat_map]. run. rewrite IH.
  now destruct (find _ (ALBUM_FILE d)).
Qed.

Lemma after_mapAlbumIdsToNames albumIdList d :
  after (business.mapAlbumIdsToNames albumIdList) d = d.
Proof. unfold after. now rewrite mapAlbumIdsToNames_run. Qed.

Lemma everyPhoto_replaced (P : list string -> Prop) d d' pre p p' post :
  everyPhoto P d ->
  PHOTO_FILE d = pre ++ p :: post ->
  PHOTO_FILE d' = pre ++ p' :: post ->
  P (Photo.tags p') ->
  everyPhoto P d'.
Proof.
  unfold everyPhoto. intros Hall Hd Hd' Hp' q Hq.
  rewrite Hd' in Hq. apply in_app_or in Hq as [Hq|[<-|Hq]].
  - apply Hall. rewrite Hd. apply in_or_app. now left.
  - exact Hp'.
  - apply Hall. rewrite Hd. apply in_or_app. right. now right.
Qed.

Lemma lowercaseDistinct_noCaseDuplicates toLowerCase tags :
  lowercaseDistinct toLowerCase tags -> noCaseDuplicates toLowerCase tags.
Proof.
  unfold lowercaseDistinct, noCaseDuplicates. intros (Hlow & Hnodup).
  replace (map toLowerCase tags) with tags; [exact Hnodup|].
  symmetry. rewrite <- (map_id tags) at 2. apply map_ext_in. exact Hlow.
Qed.

Lemma lowercaseDistinct_pushed toLowerCase tags tag :
  (forall s, toLowerCase (toLowerCase s) = toLowerCase s) ->
  lowercaseDistinct toLowerCase tags ->
  includesStr (toLowerCase tag) tags = false ->
  lowercaseDistinct toLowerCase (tags ++ [toLowerCase tag]).
Proof.
  intros Hidem (Hlow & Hnodup) Hfresh. split.
  - intros t Ht. apply in_app_or in Ht as [Ht|[<-|[]]]; auto.
  - apply NoDup_app; [exact Hnodup | repeat constructor; intros [] |].
    intros t Hin [<-|[]].
    apply includesStr_In in Hin. congruence.
Qed.

Lemma ascii_lower_idem c : ascii_lower (ascii_lower c) = ascii_lower c.
Proof.
  destruct c as [[] [] [] [] [] [] [] []]; reflexivity.
Qed.

Lemma ascii_toLowerCase_idem s :
  ascii_toLowerCase (ascii_toLowerCase s) = ascii_toLowerCase s.
Proof.
  induction s as [|c s IH]; [reflexivity|].
  cbn [ascii_toLowerCase]. now rewrite ascii_lower_idem, IH.
Qed.

(** One call keeps the stored tags lower-case and pairwise distinct. *)
Lemma exec_lowercaseDistinct toLowerCase (c : Call) d :
  (forall s, toLowerCase (toLowerCase s) = toLowerCase s) ->
  everyPhoto (lowercaseDistinct toLowerCase) d ->
  everyPhoto (lowercaseDistinct toLowerCase) (exec toLowerCase c d).
Proof.
  intros Hidem Hinv.
  destruct c as [username password | userId photoId
                | userId photoId title description | userId photoId tag
                | userId albumName | albumIdList]; cbn [exec].
  - now rewrite after_login.
  - now rewrite after_getOwnedPhoto.
  - unfold after. rewrite updatePhotoDetails_run.
    destruct (find (fun p => (Photo.id p =? photoId)%Z) (PHOTO_FILE d))
      as [p|] eqn:Hfind; [|exact Hinv].
    destruct (Photo.owner p =? userId)%Z; [|exact Hinv].
    destruct (find_id_Some _ _ _ Hfind) as (pre & post & Hfirst).
    rewrite (updatePhotoById_first _ title description _ _ _ _ Hfirst).
    cbn [snd].
    apply (everyPhoto_replaced _ d _ pre p
             (Photo.assignDetails title description p) post Hinv);
      [apply Hfirst | reflexivity |].
    change (lowercaseDistinct toLowerCase (Photo.tags p)).
    apply Hinv. rewrite (proj1 Hfirst). apply in_or_app. right. now left.
  - unfold after. rewrite addTag_run, addTagFetched_run.
    destruct (find (fun p => (Photo.id p =? photoId)%Z) (PHOTO_FILE d))
      as [p|] eqn:Hfind; [|exact Hinv].
    destruct (Photo.owner p =? userId)%Z; [|exact Hinv].
    destruct (includesStr (toLowerCase tag) (Photo.tags p)) eqn:Hfresh;
      [exact Hinv|].
    destruct (find_id_Some _ _ _ Hfind) as (pre & post & Hfirst).
    rewrite (addTagToPhoto_first _ (toLowerCase tag) _ _ _ _ Hfirst).
    cbn [snd].
    apply (everyPhoto_replaced _ d _ pre p
             (Photo.pushTag (toLowerCase tag) p) post Hinv);
      [apply Hfirst | reflexivity |].
    change (lowercaseDistinct toLowerCase
              (Photo.tags p ++ [toLowerCase tag])).
    apply lowercaseDistinct_pushed; [exact Hidem | | exact Hfresh].
    apply Hinv. rewrite (proj1 Hfirst). apply in_or_app. right. now left.
  - now rewrite after_getUserPhotosInAlbum.
  - now rewrite after_mapAlbumIdsToNames.
Qed.

(** The invariant holds along any sequence of calls. *)
Lemma lowercaseDistinct_invariant toLowerCase (calls : list Call) d :
  (forall s, toLowerCase (toLowerCase s) = toLowerCase s) ->
  everyPhoto (lowercaseDistinct toLowerCase) d ->
  everyPhoto (lowercaseDistinct toLowerCase)
    (fold_left (fun d c => exec toLowerCase c d) calls d).
Proof.
  intros Hidem. revert d.
  induction calls as [|c calls IH]; intros d Hinv; [exact Hinv|].
  cbn [fold_left]. apply IH. now apply exec_lowercaseDistinct.
Qed.

(** On lower-case tags, having no duplicate up to case is the same as
    being pairwise distinct. *)
Lemma noCaseDuplicates_lowercase toLowerCase tags :
  allLowercase toLowerCase tags ->
  (noCaseDuplicates toLowerCase tags <-> lowercaseDistinct toLowerCase tags).
Proof.
  intros Hlow. split; [|apply lowercaseDistinct_noCaseDuplicates].
  unfold noCaseDuplicates. intros Hnodup. split; [exact Hlow|].
  replace tags with (map toLowerCase tags); [exact Hnodup|].
  rewrite <- (map_id tags) at 2. apply map_ext_in. exact Hlow.
Qed.

(** C6. The tag invariant is preserved by every call of the business
    layer ([login], [getOwnedPhoto], [updatePhotoDetails], [addTag],
    [getUserPhotosInAlbum], [mapAlbumIdsToNames]). On a collection whose
    stored tags are lower-case, as the data model has them, and where
    no photo has two tags equal up to case, which is to say that the
    tags of every photo are lower-case and pairwise distinct, the same
    holds after the call: every photo's tags are lower-case and
    pairwise distinct, and none has two tags equal up to case.
    [toLowerCase] is taken idempotent. *)
Theorem tag_invariant_preserved (toLowerCase : string -> string)
    (d : Disk) (c : Call) :
  (forall s, toLowerCase (toLowerCase s) = toLowerCase s) ->
  everyPhoto (allLowercase toLowerCase) d ->
  everyPhoto (noCaseDuplicates toLowerCase) d ->
  everyPhoto (lowercaseDistinct toLowerCase) d /\
  everyPhoto (lowercaseDistinct toLowerCase) (exec toLowerCase c d) /\
  everyPhoto (noCaseDuplicates toLowerCase) (exec toLowerCase c d).
Proof.
  intros Hidem Hlow Hnodup.
  assert (Hinv : everyPhoto (lowercaseDistinct toLowerCase) d).
  { intros p Hp. apply noCaseDuplicates_lowercase; [now apply Hlow|].
    now apply Hnodup. }
  pose proof (exec_lowercaseDistinct toLowerCase c d Hidem Hinv) as Hstep.
  split; [exact Hinv|]. split; [exact Hstep|].
  intros p Hp. apply lowercaseDistinct_noCaseDuplicates. now apply Hstep.
Qed.

Lemma tag_invariant_preserved_witness :
  everyPhoto (lowercaseDistinct ascii_toLowerCase) demo /\
  everyPhoto (lowercaseDistinct ascii_toLowerCase)
    (exec ascii_toLowerCase (CallAddTag 1 7 "Sunset") demo) /\
  everyPhoto (noCaseDuplicates ascii_toLowerCase)
    (exec ascii_toLowerCase (CallAddTag 1 7 "Sunset") demo).
Proof.
  apply (tag_invariant_preserved ascii_toLowerCase demo
           (CallAddTag 1 7 "Sunset") ascii_toLowerCase_idem).
  - intros p [<-|[<-|[<-|[<-|[]]]]] t Ht; cbn in Ht;
      repeat (destruct Ht as [<-|Ht]; [reflexivity|]); destruct Ht.
  - intros p [<-|[<-|[<-|[<-|[]]]]]; unfold noCaseDuplicates; cbn;
      repeat constructor; cbn; intuition discriminate.
Defined.

(** The lower-case part of the invariant is needed. The membership
    check of [addTag] compares the lower-cased new tag with the stored
    tags as they are: on a seed tag ["Tree"], which has no duplicate up
    to case, [addTag(1, 3, "tree")] appends ["tree"] next to it. *)
Example noCaseDuplicates_alone_not_preserved :
  everyPhoto (noCaseDuplicates ascii_toLowerCase) demoMixedCase /\
  PHOTO_FILE (exec ascii_toLowerCase (CallAddTag 1 3 "tree") demoMixedCase)
    = [Photo.mk 3 1 "oak.jpg" "Oak" "" "2024-09-01T10:00:00Z"
                (AlbumsArray [1]) ["Tree"; "tree"]] /\
  ~ everyPhoto (noCaseDuplicates ascii_toLowerCase)
      (exec ascii_toLowerCase (CallAddTag 1 3 "tree") demoMixedCase).
Proof.
  split; [|split].
  - intros p [<-|[]]. unfold noCaseDuplicates. cbn.
    constructor; [intros [] | constructor].
  - reflexivity.
  - intros Hall.
    specialize (Hall _ (or_introl eq_refl)).
    unfold noCaseDuplicates in Hall. cbn in Hall.
    inversion Hall as [|t l Hnotin _]. apply Hnotin. now left.
Qed.

(** *** Album listings *)

Lemma find_None_iff {A : Type} (f : A -> bool) (l : list A) :
  find f l = None <-> forall x, In x l -> f x = false.
Proof.
  split; [apply find_none|].
  intros Hall. induction l as [|x l IH]; [reflexivity|].
  cbn. rewrite (Hall x (or_introl eq_refl)).
  apply IH. intros y Hy. apply Hall. now right.
Qed.

Lemma find_first {A : Type} (f : A -> bool) (l pre : list A) (a : A)
    (post : list A) :
  l = pre ++ a :: post ->
  (forall b, In b pre -> f b = false) ->
  f a = true ->
  find f l = Some a.
Proof.
  intros -> Hpre Ha. induction pre as [|b pre IH]; cbn.
  - now rewrite Ha.
  - rewrite (Hpre b (or_introl eq_refl)).
    apply IH. intros c Hc. apply Hpre. now right.
Qed.

Lemma filter_filter {A : Type} (f g : A -> bool) (l : list A) :
  filter f (filter g l) = filter (fun x => g x && f x) l.
Proof.
  induction l as [|x l IH]; [reflexivity|].
  cbn. destruct (g x); cbn; [|exact IH].
  destruct (f x); now rewrite IH.
Qed.

Lemma includesNum_In n l : includesNum n l = true <-> In n l.
Proof.
  unfold includesNum. rewrite existsb_exists. split.
  - intros (x & Hin & Heq). apply Z.eqb_eq in Heq. now subst.
  - intros Hin. exists n. split; [exact Hin | apply Z.eqb_refl].
Qed.

Lemma inAlbum_memberOfAlbum albumId p :
  persistence.inAlbum albumId p = true <-> memberOfAlbum albumId p.
Proof.
  unfold persistence.inAlbum, memberOfAlbum.
  destruct (Photo.albums p) as [|json|ids].
  - split; [discriminate | intros (ids & Heq & _); discriminate].
  - split; [discriminate | intros (ids & Heq & _); discriminate].
  - rewrite includesNum_In. split.
    + intros Hin. now exists ids.
    + intros (ids' & [= <-] & Hin). exact Hin.
Qed.

(** C9. [listPhotosInAlbum(albumId)] returns, in collection order, the
    photos whose [albums] field is an array containing [albumId]: it is
    the collection filtered by that property. A photo whose [albums]
    field is missing or is not an array is left out, and the call
    returns a list in every case, leaving the files as they are. *)
Theorem listPhotosInAlbum_spec (d : Disk) (albumId : Z) :
  after (persistence.listPhotosInAlbum albumId) d = d /\
  (exists keep : Photo.t -> bool,
     (forall p, keep p = true <-> memberOfAlbum albumId p) /\
     result (persistence.listPhotosInAlbum albumId) d
       = filter keep (PHOTO_FILE d)) /\
  (forall p,
     Photo.albums p = AlbumsMissing \/
     (exists json, Photo.albums p = AlbumsNotArray json) ->
     ~ In p (result (persistence.listPhotosInAlbum albumId) d)).
Proof.
  split; [reflexivity|]. split.
  - exists (persistence.inAlbum albumId).
    split; [apply inAlbum_memberOfAlbum | reflexivity].
  - intros p Hbad Hin. run. cbn [fst] in Hin.
    apply filter_In in Hin as (_ & Hkeep).
    apply inAlbum_memberOfAlbum in Hkeep as (ids & Heq & _).
    destruct Hbad as [Hbad|(json & Hbad)]; congruence.
Qed.

Lemma listPhotosInAlbum_spec_witness :
  result (persistence.listPhotosInAlbum 2) demo = [photo7; photo7'] /\
  ~ In photo8 (result (persistence.listPhotosInAlbum 2) demo) /\
  ~ In photo9 (result (persistence.listPhotosInAlbum 2) demo).
Proof.
  split; [reflexivity|]. split.
  - apply (proj2 (proj2 (listPhotosInAlbum_spec demo 2)) photo8).
    left. reflexivity.
  - apply (proj2 (proj2 (listPhotosInAlbum_spec demo 2)) photo9).
    right. exists "3". reflexivity.
Defined.

(** C7. [getUserPhotosInAlbum(u, albumName)] yields the [NotFound]
    error of albums exactly when no album has a name equal to
    [albumName] up to case; otherwise, for the first album with such a
    name, it returns that album with the photos that are in it (their
    [albums] field is an array containing its id) and whose owner is
    [u], in collection order. It leaves the files as they are. *)
Theorem getUserPhotosInAlbum_spec (toLowerCase : string -> string)
    (d : Disk) (userId : Z) (albumName : string) :
  let r :=
    result (business.getUserPhotosInAlbum toLowerCase userId albumName) d in
  after (business.getUserPhotosInAlbum toLowerCase userId albumName) d = d /\
  (r = NoAlbum AlbumNotFound <->
   forall a, In a (ALBUM_FILE d) ->
             toLowerCase (Album.name a) <> toLowerCase albumName) /\
  (forall pre a post,
     ALBUM_FILE d = pre ++ a :: post ->
     (forall b, In b pre ->
                toLowerCase (Album.name b) <> toLowerCase albumName) ->
     toLowerCase (Album.name a) = toLowerCase albumName ->
     exists keep : Photo.t -> bool,
       (forall p, keep p = true <->
                  memberOfAlbum (Album.id a) p /\ Photo.owner p = userId) /\
       r = InAlbum a (filter keep (PHOTO_FILE d))).
Proof.
  intros r. split; [apply after_getUserPhotosInAlbum|].
  assert (Hr : r =
    match find (fun a => toLowerCase (Album.name a) =? toLowerCase albumName)
               (ALBUM_FILE d) with
    | None => NoAlbum AlbumNotFound
    | Some a =>
        InAlbum a (filter (fun p => persistence.inAlbum (Album.id a) p
                                    && (Photo.owner p =? userId)%Z)
                          (PHOTO_FILE d))
    end).
  { subst r. run. destruct (find _ (ALBUM_FILE d)) as [a|]; [|reflexivity].
    cbn [fst]. now rewrite filter_filter. }
  rewrite Hr. clear Hr r. split.
  - split.
    + intros Hnone a Hin.
      destruct (find _ (ALBUM_FILE d)) eqn:Hfind; [discriminate|].
      apply String.eqb_neq. exact (find_none _ _ Hfind a Hin).
    + intros Hall.
      rewrite (proj2 (find_None_iff _ _)); [reflexivity|].
      intros a Hin. apply String.eqb_neq. now apply Hall.
  - intros pre a post Hsplit Hpre Ha.
    rewrite (find_first _ _ pre a post Hsplit).
    + exists (fun p => persistence.inAlbum (Album.id a) p
                       && (Photo.owner p =? userId)%Z).
      split; [|reflexivity].
      intros p. rewrite andb_true_iff, inAlbum_memberOfAlbum, Z.eqb_eq.
      reflexivity.
    + intros b Hb. apply String.eqb_neq. now apply Hpre.
    + apply String.eqb_eq. exact Ha.
Qed.

Lemma getUserPhotosInAlbum_spec_witness :
  result (business.getUserPhotosInAlbum ascii_toLowerCase 1 "Seaside") demo
    = NoAlbum AlbumNotFound /\
  exists keep : Photo.t -> bool,
    (forall p, keep p = true <-> memberOfAlbum 2 p /\ Photo.owner p = 1) /\
    result (business.getUserPhotosInAlbum ascii_toLowerCase 1 "TRIPS") demo
      = InAlbum (Album.mk 2 "Trips") (filter keep (PHOTO_FILE demo)).
Proof.
  split.
  - apply (proj1 (proj2 (getUserPhotosInAlbum_spec ascii_toLowerCase demo 1
                           "Seaside"))).
    intros a [<-|[<-|[]]]; discriminate.
  - apply (proj2 (proj2 (getUserPhotosInAlbum_spec ascii_toLowerCase demo 1
                           "TRIPS"))
             [Album.mk 1 "Nature"] (Album.mk 2 "Trips") []).
    + reflexivity.
    + intros b [<-|[]]. discriminate.
    + reflexivity.
Defined.

(** The listing of user 1 in album "Trips": record 7 of user 1, and not
    the second record with id 7, which user 2 owns. *)
Example getUserPhotosInAlbum_example :
  result (business.getUserPhotosInAlbum ascii_toLowerCase 1 "tRiPs") demo
  = InAlbum (Album.mk 2 "Trips") [photo7].
Proof. reflexivity. Qed.

(** *** Login *)

Lemma login_run username password d :
  business.login username password d =
    (match find (fun u => User.username u =? username) (USER_FILE d) with
     | Some user =>
         if User.password user =? password
         then Some (UserView.mk (User.id user) (User.username user))
         else None
     | None => None
     end, d).
Proof.
  run. destruct (find _ (USER_FILE d)) as [u|]; [|reflexivity].
  now destruct (User.password u =? password).
Qed.

(** With unique usernames, the record that the scan finds is the only
    one with the name. *)
Lemma find_username_unique username users u u' :
  NoDup (map User.username users) ->
  find (fun v => User.username v =? username) users = Some u ->
  In u' users ->
  User.username u' = username ->
  u' = u.
Proof.
  intros Hnodup Hfind Hin Hname.
  induction users as [|v users IH]; [contradiction|].
  cbn in Hfind, Hnodup. apply NoDup_cons_iff in Hnodup as (Hnotin & Hnodup').
  destruct (String.eqb_spec (User.username v) username) as [Hv|Hv].
  - injection Hfind as ->. destruct Hin as [->|Hin]; [reflexivity|].
    exfalso. apply Hnotin. rewrite Hv, <- Hname. now apply in_map.
  - destruct Hin as [->|Hin]; [contradiction|]. now apply IH.
Qed.

(** C4. On a user collection with unique usernames, [login(username,
    password)] returns a user exactly when a user record has that
    username (compared as strings, case included) and that password; the
    result is then the view [{ id, username }] of that record, which has
    no password field; in every other case the result is [undefined].
    It leaves the files as they are. *)
Theorem login_spec (d : Disk) (username password : string) :
  NoDup (map User.username (USER_FILE d)) ->
  after (business.login username password) d = d /\
  (forall view : UserView.t,
     result (business.login username password) d = Some view <->
     exists u, In u (USER_FILE d) /\
               User.username u = username /\
               User.password u = password /\
               view = UserView.mk (User.id u) (User.username u)) /\
  (result (business.login username password) d = None <->
   ~ exists u, In u (USER_FILE d) /\
               User.username u = username /\
               User.password u = password).
Proof.
  intros Hnodup. split; [apply after_login|].
  unfold result. rewrite login_run. cbn [fst].
  destruct (find (fun u => User.username u =? username) (USER_FILE d))
    as [u|] eqn:Hfind.
  - pose proof (find_some _ _ Hfind) as (Hin & Hname).
    apply String.eqb_eq in Hname.
    destruct (String.eqb_spec (User.password u) password) as [Hpw|Hpw].
    + split.
      * intros view. split.
        -- intros [= <-]. exists u. auto.
        -- intros (u' & Hin' & Hname' & _ & ->).
           now rewrite (find_username_unique _ _ _ _ Hnodup Hfind Hin' Hname').
      * split; [discriminate|]. intros Hno. exfalso. apply Hno.
        exists u. auto.
    + split.
      * intros view. split; [discriminate|].
        intros (u' & Hin' & Hname' & Hpw' & _).
        rewrite (find_username_unique _ _ _ _ Hnodup Hfind Hin' Hname') in Hpw'.
        contradiction.
      * split; [|reflexivity]. intros _ (u' & Hin' & Hname' & Hpw').
        rewrite (find_username_unique _ _ _ _ Hnodup Hfind Hin' Hname') in Hpw'.
        contradiction.
  - pose proof (find_none _ _ Hfind) as Hall.
    assert (Hno : ~ exists u, In u (USER_FILE d) /\
                              User.username u = username /\
                              User.password u = password).
    { intros (u & Hin & Hname & _). specialize (Hall u Hin). cbv beta in Hall.
      apply String.eqb_neq in Hall. contradiction. }
    split.
    + intros view. split; [discriminate|].
      intros (u & Hin & Hname & Hpw & _). exfalso. apply Hno. eauto.
    + split; [intros _; exact Hno | reflexivity].
Qed.

Lemma login_spec_witness :
  result (business.login "alice" "pw1") demo = Some (UserView.mk 1 "alice") /\
  result (business.login "alice" "PW1") demo = None /\
  result (business.login "Alice" "pw1") demo = None.
Proof.
  assert (Hnodup : NoDup (map User.username (USER_FILE demo))).
  { cbn. repeat constructor; cbn; intuition discriminate. }
  split; [|split].
  - apply (proj1 (proj2 (login_spec demo "alice" "pw1" Hnodup))).
    exists (User.mk 1 "alice" "pw1"). cbn. auto.
  - apply (proj2 (proj2 (login_spec demo "alice" "PW1" Hnodup))).
    intros (u & [<-|[<-|[]]] & Hname & Hpw); discriminate.
  - apply (proj2 (proj2 (login_spec demo "Alice" "pw1" Hnodup))).
    intros (u & [<-|[<-|[]]] & Hname & Hpw); discriminate.
Defined.

(** Without unique usernames the scan stops at the first record with the
    name, whatever its password. *)
Example login_first_record_only :
  result (business.login "alice" "pw2")
         (mkDisk [User.mk 1 "alice" "pw1"; User.mk 2 "alice" "pw2"] [] [] 0)
  = None.
Proof. reflexivity. Qed.


(** ** Further properties of the two layers *)

(** *** What a call can change *)

Lemma find_app_cons {A : Type} (f : A -> bool) (pre : list A) (x : A)
    (post : list A) :
  find f (pre ++ x :: post) =
    match find f pre with
    | Some y => Some y
    | None => if f x then Some x else find f post
    end.
Proof.
  induction pre as [|y pre IH]; [reflexivity|].
  cbn. now destruct (f y).
Qed.

(** A call of the business layer leaves the disk as it is, or rewrites
    [photos.json] once with one record changed: the first record with
    the requested id, with a new title and description, or with one tag
    that it did not hold appended. *)
Lemma exec_inv toLowerCase (c : Call) (d : Disk) :
  exec toLowerCase c d = d \/
  exists photoId pre p post p',
    firstWithId photoId (PHOTO_FILE d) pre p post /\
    exec toLowerCase c d =
      mkDisk (USER_FILE d) (ALBUM_FILE d) (pre ++ p' :: post)
             (S (photoWrites d)) /\
    ((exists title description,
        p' = Photo.assignDetails title description p) \/
     (exists t, p' = Photo.pushTag t p /\
                includesStr t (Photo.tags p) = false)).
Proof.
  destruct c as [username password | userId photoId
                | userId photoId title description | userId photoId tag
                | userId albumName | albumIdList]; cbn [exec].
  - left. apply after_login.
  - left. apply after_getOwnedPhoto.
  - unfold after. rewrite updatePhotoDetails_run.
    destruct (find (fun p => (Photo.id p =? photoId)%Z) (PHOTO_FILE d))
      as [p|] eqn:Hfind; [|now left].
    destruct (Photo.owner p =? userId)%Z; [|now left].
    destruct (find_id_Some _ _ _ Hfind) as (pre & post & Hfirst).
    right. exists photoId, pre, p, post,
      (Photo.assignDetails title description p).
    split; [exact Hfirst|]. split.
    + now rewrite (updatePhotoById_first _ title description _ _ _ _ Hfirst).
    + left. now exists title, description.
  - unfold after. rewrite addTag_run, addTagFetched_run.
    destruct (find (fun p => (Photo.id p =? photoId)%Z) (PHOTO_FILE d))
      as [p|] eqn:Hfind; [|now left].
    destruct (Photo.owner p =? userId)%Z; [|now left].
    destruct (includesStr (toLowerCase tag) (Photo.tags p)) eqn:Hfresh;
      [now left|].
    destruct (find_id_Some _ _ _ Hfind) as (pre & post & Hfirst).
    right. exists photoId, pre, p, post,
      (Photo.pushTag (toLowerCase tag) p).
    split; [exact Hfirst|]. split.
    + now rewrite (addTagToPhoto_first _ (toLowerCase tag) _ _ _ _ Hfirst).
    + right. now exists (toLowerCase tag).
  - left. apply after_getUserPhotosInAlbum.
  - left. apply after_mapAlbumIdsToNames.
Qed.

(** X1. No call of the business layer creates, deletes, reorders or
    re-assigns a record: after any call the users and the albums are
    the same, and the photo collection has the same ids, owners,
    filenames, dates and album memberships, position by position. *)
Theorem exec_preserves_structure (toLowerCase : string -> string)
    (c : Call) (d : Disk) :
  let d' := exec toLowerCase c d in
  USER_FILE d' = USER_FILE d /\
  ALBUM_FILE d' = ALBUM_FILE d /\
  List.length (PHOTO_FILE d') = List.length (PHOTO_FILE d) /\
  map Photo.id (PHOTO_FILE d') = map Photo.id (PHOTO_FILE d) /\
  map Photo.owner (PHOTO_FILE d') = map Photo.owner (PHOTO_FILE d) /\
  map Photo.filename (PHOTO_FILE d') = map Photo.filename (PHOTO_FILE d) /\
  map Photo.date (PHOTO_FILE d') = map Photo.date (PHOTO_FILE d) /\
  map Photo.albums (PHOTO_FILE d') = map Photo.albums (PHOTO_FILE d).
Proof.
  intros d'. subst d'.
  destruct (exec_inv toLowerCase c d)
    as [->|(photoId & pre & p & post & p' & (Hd & _) & -> & Hp')].
  - repeat split.
  - cbn [USER_FILE ALBUM_FILE PHOTO_FILE]. rewrite Hd.
    rewrite !length_app, !map_app. cbn [List.length map].
    destruct Hp' as [(title & description & ->)|(t & -> & _)];
      repeat split.
Qed.

(** X2. Tags are only ever added, one at a time: after any call every
    photo holds the tags it held, in the same order, and at most one
    photo holds one more tag, at the end of its list, which it did not
    hold before. *)
Theorem exec_tags_grow (toLowerCase : string -> string)
    (c : Call) (d : Disk) :
  map Photo.tags (PHOTO_FILE (exec toLowerCase c d))
    = map Photo.tags (PHOTO_FILE d) \/
  exists pre p post t,
    PHOTO_FILE d = pre ++ p :: post /\
    ~ In t (Photo.tags p) /\
    map Photo.tags (PHOTO_FILE (exec toLowerCase c d))
      = map Photo.tags pre ++ (Photo.tags p ++ [t]) :: map Photo.tags post.
Proof.
  destruct (exec_inv toLowerCase c d)
    as [->|(photoId & pre & p & post & p' & (Hd & _) & -> & Hp')].
  - now left.
  - cbn [PHOTO_FILE]. rewrite Hd, !map_app. cbn [map].
    destruct Hp' as [(title & description & ->)|(t & -> & Hfresh)].
    + now left.
    + right. exists pre, p, post, t. split; [reflexivity|]. split.
      * intros Hin. apply includesStr_In in Hin. congruence.
      * reflexivity.
Qed.

(** X3. Access rights are stable: whatever call ran in between,
    [getOwnedPhoto(u, id)] fails with the same error as before, or it
    succeeds as before, on a record with the same id, owner, filename,
    date and albums. *)
Theorem access_stable (toLowerCase : string -> string) (c : Call)
    (d : Disk) (userId photoId : Z) :
  match result (business.getOwnedPhoto userId photoId) d,
        result (business.getOwnedPhoto userId photoId)
               (exec toLowerCase c d) with
  | NotOwned e, NotOwned e' => e' = e
  | Owned p, Owned p' =>
      Photo.id p' = Photo.id p /\ Photo.owner p' = Photo.owner p /\
      Photo.filename p' = Photo.filename p /\
      Photo.date p' = Photo.date p /\ Photo.albums p' = Photo.albums p
  | _, _ => False
  end.
Proof.
  unfold result. rewrite !getOwnedPhoto_run. cbn [fst].
  destruct (exec_inv toLowerCase c d)
    as [->|(pid & pre & p & post & p' & (Hd & _) & -> & Hp')].
  - destruct (find _ (PHOTO_FILE d)) as [q|]; [|reflexivity].
    destruct (Photo.owner q =? userId)%Z; [repeat split | reflexivity].
  - cbn [PHOTO_FILE]. rewrite Hd, !find_app_cons.
    destruct (find (fun q => (Photo.id q =? photoId)%Z) pre) as [q|].
    + destruct (Photo.owner q =? userId)%Z; [repeat split | reflexivity].
    + assert (Hsame : Photo.id p' = Photo.id p /\
                      Photo.owner p' = Photo.owner p /\
                      Photo.filename p' = Photo.filename p /\
                      Photo.date p' = Photo.date p /\
                      Photo.albums p' = Photo.albums p).
      { destruct Hp' as [(title & description & ->)|(t & -> & _)];
          repeat split. }
      destruct Hsame as (Hid & Hown & Hrest). rewrite Hid.
      destruct (Photo.id p =? photoId)%Z.
      * rewrite Hown.
        destruct (Photo.owner p =? userId)%Z; [|reflexivity].
        repeat split; try assumption; apply Hrest.
      * destruct (find _ post) as [q|]; [|reflexivity].
        destruct (Photo.owner q =? userId)%Z; [repeat split | reflexivity].
Qed.

(** X4. Album listings are stable: after any call,
    [listPhotosInAlbum(albumId)] lists photos with the same ids and
    owners, in the same order, as before the call. *)
Theorem listing_stable (toLowerCase : string -> string) (c : Call)
    (d : Disk) (albumId : Z) :
  map Photo.id (result (persistence.listPhotosInAlbum albumId)
                       (exec toLowerCase c d))
    = map Photo.id (result (persistence.listPhotosInAlbum albumId) d) /\
  map Photo.owner (result (persistence.listPhotosInAlbum albumId)
                          (exec toLowerCase c d))
    = map Photo.owner (result (persistence.listPhotosInAlbum albumId) d).
Proof.
  destruct (exec_inv toLowerCase c d)
    as [->|(pid & pre & p & post & p' & (Hd & _) & -> & Hp')].
  - split; reflexivity.
  - run. cbn [fst PHOTO_FILE]. rewrite Hd, !filter_app. cbn [filter].
    assert (Hsame : persistence.inAlbum albumId p'
                      = persistence.inAlbum albumId p /\
                    Photo.id p' = Photo.id p /\
                    Photo.owner p' = Photo.owner p).
    { destruct Hp' as [(title & description & ->)|(t & -> & _)];
        repeat split. }
    destruct Hsame as (-> & Hid & Hown).
    destruct (persistence.inAlbum albumId p); rewrite !map_app; cbn [map];
      [rewrite Hid, Hown|]; split; reflexivity.
Qed.

(** *** The ownership gate and the writes *)

(** X5. The three owner-scoped operations share one gate: when
    [getOwnedPhoto(u, id)] fails, [updatePhotoDetails] and [addTag]
    fail with [ok: false] and the same error message; when it
    succeeds, both return [ok: true] and no error. *)
Theorem gate_agrees (toLowerCase : string -> string) (d : Disk)
    (userId photoId : Z) (title description tag : string) :
  match result (business.getOwnedPhoto userId photoId) d with
  | NotOwned e =>
      result (business.updatePhotoDetails userId photoId title description) d
        = mkResult false (Some e) None /\
      result (business.addTag toLowerCase userId photoId tag) d
        = mkResult false (Some e) None
  | Owned p =>
      result (business.updatePhotoDetails userId photoId title description) d
        = mkResult true None None /\
      result (business.addTag toLowerCase userId photoId tag) d
        = mkResult true None
            (if includesStr (toLowerCase tag) (Photo.tags p)
             then Some true else None)
  end.
Proof.
  unfold result.
  rewrite getOwnedPhoto_run, updatePhotoDetails_run, addTag_run,
    addTagFetched_run. cbn [fst].
  destruct (find (fun p => (Photo.id p =? photoId)%Z) (PHOTO_FILE d))
    as [p|] eqn:Hfind; [|split; reflexivity].
  destruct (Photo.owner p =? userId)%Z; [|split; reflexivity].
  destruct (find_id_Some _ _ _ Hfind) as (pre & post & Hfirst).
  rewrite (updatePhotoById_first _ title description _ _ _ _ Hfirst).
  split; [reflexivity|].
  destruct (includesStr (toLowerCase tag) (Photo.tags p)); [reflexivity|].
  now rewrite (addTagToPhoto_first _ (toLowerCase tag) _ _ _ _ Hfirst).
Qed.

(** X6. [photos.json] is rewritten exactly when a mutating operation
    reports a change: [updatePhotoDetails] writes once when it returns
    [ok: true] and [addTag] writes once when it returns [ok: true]
    without [skipped]; in every other case the disk is left as it is. *)
Theorem write_iff_success (toLowerCase : string -> string) (d : Disk)
    (userId photoId : Z) (title description tag : string) :
  (let r := result (business.updatePhotoDetails userId photoId
                      title description) d in
   let d' := after (business.updatePhotoDetails userId photoId
                      title description) d in
   if ok r then photoWrites d' = S (photoWrites d) else d' = d) /\
  (let r := result (business.addTag toLowerCase userId photoId tag) d in
   let d' := after (business.addTag toLowerCase userId photoId tag) d in
   match ok r, skipped r with
   | true, None => photoWrites d' = S (photoWrites d)
   | _, _ => d' = d
   end).
Proof.
  unfold result, after.
  rewrite updatePhotoDetails_run, addTag_run, addTagFetched_run.
  destruct (find (fun p => (Photo.id p =? photoId)%Z) (PHOTO_FILE d))
    as [p|] eqn:Hfind; [|split; reflexivity].
  destruct (Photo.owner p =? userId)%Z; [|split; reflexivity].
  destruct (find_id_Some _ _ _ Hfind) as (pre & post & Hfirst).
  rewrite (updatePhotoById_first _ title description _ _ _ _ Hfirst).
  split; [reflexivity|].
  destruct (includesStr (toLowerCase tag) (Photo.tags p)); [reflexivity|].
  now rewrite (addTagToPhoto_first _ (toLowerCase tag) _ _ _ _ Hfirst).
Qed.

(** X7. The persistence writes report whether a record matched:
    [updatePhotoById] and [addTagToPhoto] return [true] exactly when a
    photo with the id is stored; they then write once, and otherwise
    leave the disk as it is. *)
Theorem persistence_update_flag (d : Disk) (photoId : Z)
    (title description tag : string) :
  (result (persistence.updatePhotoById photoId title description) d = true
   <-> exists p, In p (PHOTO_FILE d) /\ Photo.id p = photoId) /\
  (result (persistence.addTagToPhoto photoId tag) d = true
   <-> exists p, In p (PHOTO_FILE d) /\ Photo.id p = photoId) /\
  (if result (persistence.updatePhotoById photoId title description) d
   then photoWrites
          (after (persistence.updatePhotoById photoId title description) d)
        = S (photoWrites d)
   else after (persistence.updatePhotoById photoId title description) d = d)
  /\
  (if result (persistence.addTagToPhoto photoId tag) d
   then photoWrites (after (persistence.addTagToPhoto photoId tag) d)
        = S (photoWrites d)
   else after (persistence.addTagToPhoto photoId tag) d = d).
Proof.
  unfold result, after.
  destruct (absent_or_first photoId (PHOTO_FILE d))
    as [Habs|(pre & p & post & Hfirst)].
  - rewrite (updatePhotoById_absent _ title description _ Habs),
      (addTagToPhoto_absent _ tag _ Habs). cbn [fst snd].
    assert (Hno : ~ exists p, In p (PHOTO_FILE d) /\ Photo.id p = photoId).
    { intros (p & Hin & Hid). exact (Habs p Hin Hid). }
    repeat split; try discriminate; intros H; exfalso; exact (Hno H).
  - rewrite (updatePhotoById_first _ title description _ _ _ _ Hfirst),
      (addTagToPhoto_first _ tag _ _ _ _ Hfirst). cbn [fst snd photoWrites].
    assert (Hyes : exists q, In q (PHOTO_FILE d) /\ Photo.id q = photoId).
    { exists p. destruct Hfirst as (-> & _ & Hid). split; [|exact Hid].
      apply in_or_app. right. now left. }
    repeat split; auto.
Qed.

(** X8. Re-submitting the current title and description of an owned
    photo is a write that changes nothing: [photos.json] is rewritten
    once, with the collection it already held. *)
Theorem updatePhotoDetails_keep_values (d : Disk) (userId photoId : Z)
    (pre : list Photo.t) (p : Photo.t) (post : list Photo.t) :
  firstWithId photoId (PHOTO_FILE d) pre p post ->
  Photo.owner p = userId ->
  let d' := after (business.updatePhotoDetails userId photoId
                     (Photo.title p) (Photo.description p)) d in
  PHOTO_FILE d' = PHOTO_FILE d /\ photoWrites d' = S (photoWrites d).
Proof.
  intros Hfirst Hown d'. subst d'. unfold after.
  rewrite (updatePhotoDetails_owned _ _ _ _ _ _ _ _ Hfirst Hown).
  cbn [snd PHOTO_FILE photoWrites]. split; [|reflexivity].
  rewrite (proj1 Hfirst). now destruct p.
Qed.

Lemma updatePhotoDetails_keep_values_witness :
  PHOTO_FILE (after (business.updatePhotoDetails 1 7 "Old" "") demo)
    = PHOTO_FILE demo /\
  photoWrites (after (business.updatePhotoDetails 1 7 "Old" "") demo) = 1%nat.
Proof.
  assert (Hfirst : firstWithId 7 (PHOTO_FILE demo) [] photo7
                     [photo8; photo9; photo7']).
  { repeat split. intros q []. }
  exact (updatePhotoDetails_keep_values demo 1 7 [] photo7
           [photo8; photo9; photo7'] Hfirst eq_refl).
Defined.

(** X9. The last update wins: after two [updatePhotoDetails] calls of
    the same user on the same id, the photo collection is the one that
    the second call alone would have left. In particular, repeating a
    call changes nothing more. *)
Theorem updatePhotoDetails_last_wins (d : Disk) (userId photoId : Z)
    (title1 description1 title2 description2 : string) :
  PHOTO_FILE
    (after (business.updatePhotoDetails userId photoId title2 description2)
       (after (business.updatePhotoDetails userId photoId
                 title1 description1) d))
  = PHOTO_FILE
      (after (business.updatePhotoDetails userId photoId
                title2 description2) d).
Proof.
  unfold after.
  rewrite (updatePhotoDetails_run userId photoId title1 description1 d).
  destruct (find (fun p => (Photo.id p =? photoId)%Z) (PHOTO_FILE d))
    as [p|] eqn:Hfind; [|reflexivity].
  destruct (Z.eqb_spec (Photo.owner p) userId) as [Hown|Hne]; [|reflexivity].
  destruct (find_id_Some _ _ _ Hfind) as (pre & post & Hfirst).
  rewrite (updatePhotoById_first _ title1 description1 _ _ _ _ Hfirst).
  cbn [snd].
  rewrite (updatePhotoDetails_owned _ _ title2 description2 d _ _ _
             Hfirst Hown).
  rewrite (updatePhotoDetails_owned _ _ title2 description2 _ pre
             (Photo.assignDetails title1 description1 p) post).
  - reflexivity.
  - destruct Hfirst as (_ & Habs & Hid). repeat split; assumption.
  - exact Hown.
Qed.

(** X10. The persistence layer does not filter duplicates: calling
    [addTagToPhoto] twice with a tag appends it twice to the first
    record with the id. *)
Theorem addTagToPhoto_no_dedup (d : Disk) (photoId : Z) (tag : string)
    (pre : list Photo.t) (p : Photo.t) (post : list Photo.t) :
  firstWithId photoId (PHOTO_FILE d) pre p post ->
  PHOTO_FILE (after (persistence.addTagToPhoto photoId tag)
                (after (persistence.addTagToPhoto photoId tag) d))
  = pre ++ Photo.mk (Photo.id p) (Photo.owner p) (Photo.filename p)
                    (Photo.title p) (Photo.description p) (Photo.date p)
                    (Photo.albums p) (Photo.tags p ++ [tag; tag]) :: post.
Proof.
  intros Hfirst. unfold after.
  rewrite (addTagToPhoto_first _ tag _ _ _ _ Hfirst). cbn [snd].
  rewrite (addTagToPhoto_first _ tag _ pre (Photo.pushTag tag p) post).
  - cbn [snd PHOTO_FILE]. unfold Photo.pushTag. cbn.
    now rewrite <- app_assoc.
  - destruct Hfirst as (_ & Habs & Hid). repeat split; assumption.
Qed.

Lemma addTagToPhoto_no_dedup_witness :
  PHOTO_FILE (after (persistence.addTagToPhoto 7 "tree")
                (after (persistence.addTagToPhoto 7 "tree") demo))
  = [Photo.mk 7 1 "tree.jpg" "Old" "" "2024-05-01T10:00:00Z"
              (AlbumsArray [1; 2]) ["tree"; "tree"; "tree"];
     photo8; photo9; photo7'].
Proof.
  assert (Hfirst : firstWithId 7 (PHOTO_FILE demo) [] photo7
                     [photo8; photo9; photo7']).
  { repeat split. intros q []. }
  exact (addTagToPhoto_no_dedup demo 7 "tree" [] photo7
           [photo8; photo9; photo7'] Hfirst).
Defined.

(** *** How the two mutations compose *)

Lemma mutateFirst_commute photoId1 photoId2 (f g : Photo.t -> Photo.t)
    (photos : list Photo.t) :
  (forall p, Photo.id (f p) = Photo.id p) ->
  (forall p, Photo.id (g p) = Photo.id p) ->
  (forall p, f (g p) = g (f p)) ->
  fst (persistence.mutateFirst photoId1 f
         (fst (persistence.mutateFirst photoId2 g photos)))
  = fst (persistence.mutateFirst photoId2 g
           (fst (persistence.mutateFirst photoId1 f photos))).
Proof.
  intros Hf Hg Hfg. induction photos as [|x rest IH]; [reflexivity|].
  cbn [persistence.mutateFirst].
  destruct (Photo.id x =? photoId2)%Z eqn:H2;
    destruct (Photo.id x =? photoId1)%Z eqn:H1.
  - cbn [fst persistence.mutateFirst]. now rewrite Hg, Hf, H1, H2, Hfg.
  - destruct (persistence.mutateFirst photoId1 f rest) as [r1 u1] eqn:E1.
    cbn [fst persistence.mutateFirst]. now rewrite Hg, H1, H2, E1.
  - destruct (persistence.mutateFirst photoId2 g rest) as [r2 u2] eqn:E2.
    cbn [fst persistence.mutateFirst]. now rewrite Hf, H1, H2, E2.
  - destruct (persistence.mutateFirst photoId1 f rest) as [r1 u1] eqn:E1.
    destruct (persistence.mutateFirst photoId2 g rest) as [r2 u2] eqn:E2.
    cbn [fst persistence.mutateFirst] in *. rewrite H1, H2.
    destruct (persistence.mutateFirst photoId1 f r2) as [r12 u12].
    destruct (persistence.mutateFirst photoId2 g r1) as [r21 u21].
    cbn [fst] in *. now rewrite IH.
Qed.

(** A mutation that keeps the id and a field [proj] of every record
    keeps that field of the first record with any given id. *)
Lemma find_mutateFirst {B : Type} (proj : Photo.t -> B) photoId photoId'
    (mutate : Photo.t -> Photo.t) (photos : list Photo.t) :
  (forall p, Photo.id (mutate p) = Photo.id p) ->
  (forall p, proj (mutate p) = proj p) ->
  option_map proj
    (find (fun p => (Photo.id p =? photoId)%Z)
          (fst (persistence.mutateFirst photoId' mutate photos)))
  = option_map proj (find (fun p => (Photo.id p =? photoId)%Z) photos).
Proof.
  intros Hid Hproj. induction photos as [|x rest IH]; [reflexivity|].
  cbn [persistence.mutateFirst].
  destruct (Photo.id x =? photoId')%Z.
  - cbn [fst find]. rewrite Hid.
    destruct (Photo.id x =? photoId)%Z; [|reflexivity].
    cbn [option_map]. now rewrite Hproj.
  - destruct (persistence.mutateFirst photoId' mutate rest) as [r u].
    cbn [fst find] in *.
    destruct (Photo.id x =? photoId)%Z; [reflexivity | exact IH].
Qed.

Lemma ownsFirst_mutateFirst userId photoId photoId' mutate photos :
  (forall p, Photo.id (mutate p) = Photo.id p) ->
  (forall p, Photo.owner (mutate p) = Photo.owner p) ->
  ownsFirst userId photoId
    (fst (persistence.mutateFirst photoId' mutate photos))
  = ownsFirst userId photoId photos.
Proof.
  intros Hid Hown. unfold ownsFirst.
  pose proof (find_mutateFirst Photo.owner photoId photoId' mutate photos
                Hid Hown) as H.
  destruct (find _ (fst _)) as [q'|], (find _ photos) as [q|];
    cbn in H; congruence.
Qed.

Lemma firstTags_mutateFirst photoId photoId' mutate photos :
  (forall p, Photo.id (mutate p) = Photo.id p) ->
  (forall p, Photo.tags (mutate p) = Photo.tags p) ->
  firstTags photoId (fst (persistence.mutateFirst photoId' mutate photos))
  = firstTags photoId photos.
Proof.
  intros Hid Htags. unfold firstTags.
  pose proof (find_mutateFirst Photo.tags photoId photoId' mutate photos
                Hid Htags) as H.
  destruct (find _ (fst _)) as [q'|], (find _ photos) as [q|];
    cbn in H; congruence.
Qed.

Lemma after_updatePhotoDetails userId photoId title description d :
  after (business.updatePhotoDetails userId photoId title description) d =
    if ownsFirst userId photoId (PHOTO_FILE d)
    then mkDisk (USER_FILE d) (ALBUM_FILE d)
           (fst (persistence.mutateFirst photoId
                   (Photo.assignDetails title description) (PHOTO_FILE d)))
           (S (photoWrites d))
    else d.
Proof.
  unfold after, ownsFirst. rewrite updatePhotoDetails_run.
  destruct (find (fun p => (Photo.id p =? photoId)%Z) (PHOTO_FILE d))
    as [p|] eqn:Hfind; [|reflexivity].
  destruct (Photo.owner p =? userId)%Z; [|reflexivity].
  destruct (find_id_Some _ _ _ Hfind) as (pre & post & Hfirst).
  rewrite (updatePhotoById_first _ title description _ _ _ _ Hfirst).
  now rewrite (mutateFirst_first _ _ _ _ _ _ Hfirst).
Qed.

Lemma after_addTag toLowerCase userId photoId tag d :
  after (business.addTag toLowerCase userId photoId tag) d =
    if ownsFirst userId photoId (PHOTO_FILE d)
       && negb (includesStr (toLowerCase tag)
                            (firstTags photoId (PHOTO_FILE d)))
    then mkDisk (USER_FILE d) (ALBUM_FILE d)
           (fst (persistence.mutateFirst photoId
                   (Photo.pushTag (toLowerCase tag)) (PHOTO_FILE d)))
           (S (photoWrites d))
    else d.
Proof.
  unfold after, ownsFirst, firstTags. rewrite addTag_run, addTagFetched_run.
  destruct (find (fun p => (Photo.id p =? photoId)%Z) (PHOTO_FILE d))
    as [p|] eqn:Hfind; [|reflexivity].
  destruct (Photo.owner p =? userId)%Z; [|reflexivity].
  destruct (includesStr (toLowerCase tag) (Photo.tags p)); [reflexivity|].
  destruct (find_id_Some _ _ _ Hfind) as (pre & post & Hfirst).
  rewrite (addTagToPhoto_first _ (toLowerCase tag) _ _ _ _ Hfirst).
  now rewrite (mutateFirst_first _ _ _ _ _ _ Hfirst).
Qed.

(** X11. Editing details and tagging are independent: an
    [updatePhotoDetails] and an [addTag], by any users on any photos,
    leave the same disk in either order. *)
Theorem updatePhotoDetails_addTag_commute (toLowerCase : string -> string)
    (d : Disk) (userId1 photoId1 : Z) (title description : string)
    (userId2 photoId2 : Z) (tag : string) :
  after (business.addTag toLowerCase userId2 photoId2 tag)
    (after (business.updatePhotoDetails userId1 photoId1
              title description) d)
  = after (business.updatePhotoDetails userId1 photoId1 title description)
      (after (business.addTag toLowerCase userId2 photoId2 tag) d).
Proof.
  rewrite (after_updatePhotoDetails userId1 photoId1 title description d).
  rewrite (after_addTag toLowerCase userId2 photoId2 tag d).
  destruct (ownsFirst userId1 photoId1 (PHOTO_FILE d)) eqn:Hgate1;
    destruct (ownsFirst userId2 photoId2 (PHOTO_FILE d)
              && negb (includesStr (toLowerCase tag)
                         (firstTags photoId2 (PHOTO_FILE d)))) eqn:Hgate2;
    rewrite ?after_addTag, ?after_updatePhotoDetails;
    cbn [PHOTO_FILE USER_FILE ALBUM_FILE photoWrites];
    rewrite ?ownsFirst_mutateFirst, ?firstTags_mutateFirst
      by (intros []; reflexivity);
    rewrite ?Hgate1, ?Hgate2; try reflexivity.
  f_equal. apply mutateFirst_commute; intros []; reflexivity.
Qed.

(** X12. [addTag] stores the lower-cased tag: after an [addTag] by the
    owner, the photo that [getOwnedPhoto] returns holds
    [toLowerCase tag]; its other tags are the ones it held, and its
    other fields are as before. The tag as typed is stored only if it
    is its own lower-case form or was there already. *)
Theorem addTag_stores_lowercase (toLowerCase : string -> string)
    (d : Disk) (userId photoId : Z) (tag : string)
    (pre : list Photo.t) (p : Photo.t) (post : list Photo.t) :
  firstWithId photoId (PHOTO_FILE d) pre p post ->
  Photo.owner p = userId ->
  exists tags',
    result (business.getOwnedPhoto userId photoId)
           (after (business.addTag toLowerCase userId photoId tag) d)
      = Owned (Photo.mk (Photo.id p) (Photo.owner p) (Photo.filename p)
                        (Photo.title p) (Photo.description p) (Photo.date p)
                        (Photo.albums p) tags') /\
    In (toLowerCase tag) tags' /\
    (forall t, In t tags' <-> In t (Photo.tags p) \/ t = toLowerCase tag).
Proof.
  intros Hfirst Hown. unfold after, result.
  rewrite (addTag_owned _ _ _ tag _ _ _ _ Hfirst Hown).
  destruct (includesStr (toLowerCase tag) (Photo.tags p)) eqn:Hin;
    cbn [snd]; rewrite getOwnedPhoto_run; cbn [fst PHOTO_FILE].
  - exists (Photo.tags p). apply includesStr_In in Hin.
    rewrite (find_id_first _ _ _ _ _ Hfirst), (proj2 (Z.eqb_eq _ _) Hown).
    split; [now destruct p|]. split; [exact Hin|].
    intros t. split; [now left | intros [Ht| ->]; assumption].
  - exists (Photo.tags p ++ [toLowerCase tag]).
    destruct Hfirst as (_ & Habs & Hid).
    rewrite (find_id_first photoId _ pre
               (Photo.pushTag (toLowerCase tag) p) post)
      by (repeat split; assumption).
    cbn [Photo.pushTag Photo.owner]. rewrite (proj2 (Z.eqb_eq _ _) Hown).
    split; [reflexivity|]. split.
    + apply in_or_app. right. now left.
    + intros t. rewrite in_app_iff. cbn [In]. intuition congruence.
Qed.

Lemma addTag_stores_lowercase_witness :
  exists tags',
    result (business.getOwnedPhoto 1 7)
           (after (business.addTag ascii_toLowerCase 1 7 "Sunset") demo)
      = Owned (Photo.mk 7 1 "tree.jpg" "Old" "" "2024-05-01T10:00:00Z"
                        (AlbumsArray [1; 2]) tags') /\
    In "sunset" tags' /\
    (forall t, In t tags' <-> In t ["tree"] \/ t = "sunset").
Proof.
  assert (Hfirst : firstWithId 7 (PHOTO_FILE demo) [] photo7
                     [photo8; photo9; photo7']).
  { repeat split. intros q []. }
  exact (addTag_stores_lowercase ascii_toLowerCase demo 1 7 "Sunset"
           [] photo7 [photo8; photo9; photo7'] Hfirst eq_refl).
Defined.

(** Whether, and with which message, [getOwnedPhoto] denies a photo is
    decided by the ids and the owners of the collection. *)
Lemma denial_run userId photoId d :
  denial (result (business.getOwnedPhoto userId photoId) d) =
    match find (fun p => (Photo.id p =? photoId)%Z) (PHOTO_FILE d) with
    | None => Some NotFound
    | Some p => if (Photo.owner p =? userId)%Z then None
                else Some AccessDenied
    end.
Proof.
  unfold result. rewrite getOwnedPhoto_run. cbn [fst].
  destruct (find _ (PHOTO_FILE d)) as [p|]; [|reflexivity].
  now destruct (Photo.owner p =? userId)%Z.
Qed.

Lemma denial_exec toLowerCase c d userId photoId :
  denial (result (business.getOwnedPhoto userId photoId)
                 (exec toLowerCase c d))
  = denial (result (business.getOwnedPhoto userId photoId) d).
Proof.
  rewrite !denial_run.
  destruct (exec_inv toLowerCase c d)
    as [->|(pid & pre & p & post & p' & (Hd & _) & -> & Hp')];
    [reflexivity|].
  cbn [PHOTO_FILE]. rewrite Hd, !find_app_cons.
  destruct (find (fun q => (Photo.id q =? photoId)%Z) pre); [reflexivity|].
  assert (Hsame : Photo.id p' = Photo.id p /\
                  Photo.owner p' = Photo.owner p).
  { destruct Hp' as [(title & description & ->)|(t & -> & _)]; now split. }
  destruct Hsame as (-> & Hown).
  destruct (Photo.id p =? photoId)%Z; [now rewrite Hown | reflexivity].
Qed.

(** X13. Along any sequence of calls of the business layer, nobody
    gains or loses access: [getOwnedPhoto(u, id)] is denied after the
    sequence exactly when it was denied before it, with the same
    message. *)
Theorem access_invariant (toLowerCase : string -> string)
    (calls : list Call) (d : Disk) (userId photoId : Z) :
  denial (result (business.getOwnedPhoto userId photoId)
            (fold_left (fun d c => exec toLowerCase c d) calls d))
  = denial (result (business.getOwnedPhoto userId photoId) d).
Proof.
  revert d. induction calls as [|c calls IH]; intros d; [reflexivity|].
  cbn [fold_left]. rewrite IH. apply denial_exec.
Qed.

(** *** Album lookups *)

Lemma getAlbumById_run albumId d :
  persistence.getAlbumById albumId d =
    (find (fun a => (Album.id a =? albumId)%Z) (ALBUM_FILE d), d).
Proof. reflexivity. Qed.

(** X14. [mapAlbumIdsToNames] resolves a concatenation piecewise: the
    names of [ids1 ++ ids2] are the names of [ids1] followed by the
    names of [ids2], and the files are not touched. *)
Theorem mapAlbumIdsToNames_app (d : Disk) (ids1 ids2 : list Z) :
  result (business.mapAlbumIdsToNames (ids1 ++ ids2)) d
    = result (business.mapAlbumIdsToNames ids1) d
      ++ result (business.mapAlbumIdsToNames ids2) d /\
  after (business.mapAlbumIdsToNames (ids1 ++ ids2)) d = d.
Proof.
  unfold result, after. rewrite !mapAlbumIdsToNames_run. cbn [fst snd].
  split; [apply flat_map_app | reflexivity].
Qed.

(** X15. [mapAlbumIdsToNames] skips the ids that no album has and
    yields one name for each of the others: a name is in the result
    exactly when it is the name of the album that [getAlbumById] finds
    for some id of the input, and the result has as many names as the
    input has ids of stored albums. *)
Theorem mapAlbumIdsToNames_skips_unknown (d : Disk) (ids : list Z) :
  (forall name,
     In name (result (business.mapAlbumIdsToNames ids) d) <->
     exists albumId a,
       In albumId ids /\
       result (persistence.getAlbumById albumId) d = Some a /\
       Album.name a = name) /\
  List.length (result (business.mapAlbumIdsToNames ids) d)
    = List.length
        (filter (fun albumId =>
                   existsb (fun a => (Album.id a =? albumId)%Z)
                           (ALBUM_FILE d)) ids).
Proof.
  unfold result. rewrite mapAlbumIdsToNames_run. cbn [fst]. split.
  - intros name. rewrite in_flat_map. split.
    + intros (albumId & Hin & Hname).
      destruct (find (fun a => (Album.id a =? albumId)%Z) (ALBUM_FILE d))
        as [a|] eqn:Hfind; [|destruct Hname].
      destruct Hname as [<-|[]]. exists albumId, a.
      rewrite getAlbumById_run. cbn [fst]. auto.
    + intros (albumId & a & Hin & Hfind & <-).
      rewrite getAlbumById_run in Hfind. cbn [fst] in Hfind.
      exists albumId. rewrite Hfind. split; [exact Hin | now left].
  - induction ids as [|albumId ids IH]; [reflexivity|].
    cbn [flat_map filter]. rewrite length_app, IH.
    destruct (find (fun a => (Album.id a =? albumId)%Z) (ALBUM_FILE d))
      as [a|] eqn:Hfind.
    + destruct (find_some _ _ Hfind) as (Hin & Hid).
      replace (existsb _ (ALBUM_FILE d)) with true; [reflexivity|].
      symmetry. apply existsb_exists. now exists a.
    + replace (existsb _ (ALBUM_FILE d)) with false; [reflexivity|].
      symmetry. apply not_true_is_false. intros Hex.
      apply existsb_exists in Hex as (a & Hin & Hid).
      pose proof (find_none _ _ Hfind a Hin) as Hno. cbv beta in Hno.
      congruence.
Qed.

Lemma find_album_unique (albums : list Album.t) (a : Album.t) :
  NoDup (map Album.id albums) ->
  In a albums ->
  find (fun b => (Album.id b =? Album.id a)%Z) albums = Some a.
Proof.
  intros Hnodup Hin.
  destruct (in_split _ _ Hin) as (pre & post & ->).
  apply (find_first _ _ pre a post eq_refl); [|apply Z.eqb_refl].
  intros b Hb. apply Z.eqb_neq. intros Heq.
  rewrite map_app in Hnodup. cbn [map] in Hnodup.
  apply NoDup_remove_2 in Hnodup. apply Hnodup.
  apply in_or_app. left. rewrite <- Heq. now apply in_map.
Qed.

(** X16. Ids and names of albums correspond when album ids are unique:
    [getAlbumById] of a stored album's id returns that album, and
    [mapAlbumIdsToNames] of the album ids of the collection returns
    the album names of the collection, in order. *)
Theorem album_ids_to_names (d : Disk) :
  NoDup (map Album.id (ALBUM_FILE d)) ->
  (forall a, In a (ALBUM_FILE d) ->
             result (persistence.getAlbumById (Album.id a)) d = Some a) /\
  result (business.mapAlbumIdsToNames (map Album.id (ALBUM_FILE d))) d
    = map Album.name (ALBUM_FILE d).
Proof.
  intros Hnodup. unfold result. split.
  - intros a Hin. rewrite getAlbumById_run. cbn [fst].
    now apply find_album_unique.
  - rewrite mapAlbumIdsToNames_run. cbn [fst].
    assert (Hall : forall l, incl l (ALBUM_FILE d) ->
      flat_map (fun aid =>
        match find (fun a => (Album.id a =? aid)%Z) (ALBUM_FILE d) with
        | Some a => [Album.name a]
        | None => []
        end) (map Album.id l) = map Album.name l).
    { induction l as [|a l IH]; intros Hincl; [reflexivity|].
      cbn [map flat_map].
      rewrite (find_album_unique _ a Hnodup (Hincl a (or_introl eq_refl))).
      cbn [app]. f_equal. apply IH. intros b Hb. apply Hincl. now right. }
    apply Hall. apply incl_refl.
Qed.

Lemma album_ids_to_names_witness :
  result (persistence.getAlbumById 2) demo = Some (Album.mk 2 "Trips") /\
  result (business.mapAlbumIdsToNames [1; 2]) demo = ["Nature"; "Trips"].
Proof.
  assert (Hnodup : NoDup (map Album.id (ALBUM_FILE demo))).
  { cbn. repeat constructor; cbn; intuition discriminate. }
  split.
  - apply (proj1 (album_ids_to_names demo Hnodup) (Album.mk 2 "Trips")).
    right. now left.
  - exact (proj2 (album_ids_to_names demo Hnodup)).
Defined.

Lemma NoDup_map_eq {A B : Type} (f : A -> B) (l : list A) (x y : A) :
  NoDup (map f l) -> In x l -> In y l -> f x = f y -> x = y.
Proof.
  induction l as [|z l IH]; intros Hnodup Hx Hy Heq; [contradiction|].
  cbn [map] in Hnodup. apply NoDup_cons_iff in Hnodup as (Hnotin & Hnodup).
  destruct Hx as [->|Hx], Hy as [->|Hy].
  - reflexivity.
  - exfalso. apply Hnotin. rewrite Heq. now apply in_map.
  - exfalso. apply Hnotin. rewrite <- Heq. now apply in_map.
  - now apply IH.
Qed.

(** X17. Every stored album can be found by its name in any casing:
    for a name with the lower-case form of a stored album's name,
    [getAlbumByName] returns a stored album whose name has that
    lower-case form, the same one as for the stored spelling; it is
    that very album when album names are unique up to case. *)
Theorem getAlbumByName_finds_stored (toLowerCase : string -> string)
    (d : Disk) (a : Album.t) (name : string) :
  In a (ALBUM_FILE d) ->
  toLowerCase name = toLowerCase (Album.name a) ->
  exists a',
    result (persistence.getAlbumByName toLowerCase name) d = Some a' /\
    result (persistence.getAlbumByName toLowerCase (Album.name a)) d
      = Some a' /\
    In a' (ALBUM_FILE d) /\
    toLowerCase (Album.name a') = toLowerCase (Album.name a) /\
    (NoDup (map (fun b => toLowerCase (Album.name b)) (ALBUM_FILE d)) ->
     a' = a).
Proof.
  intros Hin Hname. run. cbn [fst]. rewrite Hname.
  destruct (find (fun b => toLowerCase (Album.name b)
                           =? toLowerCase (Album.name a)) (ALBUM_FILE d))
    as [a'|] eqn:Hfind.
  - destruct (find_some _ _ Hfind) as (Hin' & Heq).
    apply String.eqb_eq in Heq.
    exists a'. repeat split; try assumption.
    intros Hnodup.
    exact (NoDup_map_eq (fun b => toLowerCase (Album.name b)) _ a' a
             Hnodup Hin' Hin Heq).
  - pose proof (find_none _ _ Hfind a Hin) as Hno. cbv beta in Hno.
    now rewrite String.eqb_refl in Hno.
Qed.

Lemma getAlbumByName_finds_stored_witness :
  exists a',
    result (persistence.getAlbumByName ascii_toLowerCase "NATURE") demo
      = Some a' /\
    result (persistence.getAlbumByName ascii_toLowerCase "Nature") demo
      = Some a' /\
    In a' (ALBUM_FILE demo) /\
    ascii_toLowerCase (Album.name a') = "nature" /\
    (NoDup (map (fun b => ascii_toLowerCase (Album.name b))
                (ALBUM_FILE demo)) ->
     a' = Album.mk 1 "Nature").
Proof.
  exact (getAlbumByName_finds_stored ascii_toLowerCase demo
           (Album.mk 1 "Nature") "NATURE" (or_introl eq_refl) eq_refl).
Defined.

(** X18. The album that [getUserPhotosInAlbum] resolves does not depend
    on the requester, and the users' listings partition the album: for
    a name that resolves, every user gets the same album, with the
    photos of [listPhotosInAlbum] of its id that the user owns; so each
    photo of the album is in the listing of its owner and of nobody
    else. For a name that does not resolve, every user gets the error. *)
Theorem album_listing_partition (toLowerCase : string -> string)
    (d : Disk) (albumName : string) :
  (forall userId,
     result (business.getUserPhotosInAlbum toLowerCase userId albumName) d
       = NoAlbum AlbumNotFound) \/
  exists a,
    result (persistence.getAlbumByName toLowerCase albumName) d = Some a /\
    forall userId, exists mine,
      result (business.getUserPhotosInAlbum toLowerCase userId albumName) d
        = InAlbum a mine /\
      forall p,
        In p mine <->
        In p (result (persistence.listPhotosInAlbum (Album.id a)) d) /\
        Photo.owner p = userId.
Proof.
  run. cbn [fst].
  destruct (find (fun a => toLowerCase (Album.name a)
                           =? toLowerCase albumName) (ALBUM_FILE d))
    as [a|]; [|now left].
  right. exists a. split; [reflexivity|]. intros userId.
  exists (filter (fun p => (Photo.owner p =? userId)%Z)
                 (filter (persistence.inAlbum (Album.id a)) (PHOTO_FILE d))).
  split; [reflexivity|].
  intros p. rewrite filter_In, Z.eqb_eq. reflexivity.
Qed.

(** X19. [login] is sound whether or not usernames are unique: a
    returned view carries the requested username and the id of a
    stored user that has this username and the given password. *)
Theorem login_sound (d : Disk) (username password : string)
    (view : UserView.t) :
  result (business.login username password) d = Some view ->
  UserView.username view = username /\
  exists u, In u (USER_FILE d) /\
            User.id u = UserView.id view /\
            User.username u = username /\
            User.password u = password.
Proof.
  unfold result. rewrite login_run. cbn [fst].
  destruct (find (fun u => User.username u =? username) (USER_FILE d))
    as [u|] eqn:Hfind; [|discriminate].
  destruct (find_some _ _ Hfind) as (Hin & Hname).
  apply String.eqb_eq in Hname.
  destruct (String.eqb_spec (User.password u) password) as [Hpw|Hpw];
    [|discriminate].
  intros [= <-]. cbn [UserView.username UserView.id].
  split; [exact Hname|]. now exists u.
Qed.

Lemma login_sound_witness :
  UserView.username (UserView.mk 2 "bob") = "bob" /\
  exists u, In u (USER_FILE demo) /\
            User.id u = UserView.id (UserView.mk 2 "bob") /\
            User.username u = "bob" /\
            User.password u = "pw2".
Proof.
  exact (login_sound demo "bob" "pw2" (UserView.mk 2 "bob") eq_refl).
Defined.

(** *** Mutations of different photos *)

Lemma mutateFirst_commute_ne photoId1 photoId2 (f g : Photo.t -> Photo.t)
    (photos : list Photo.t) :
  photoId1 <> photoId2 ->
  (forall p, Photo.id (f p) = Photo.id p) ->
  (forall p, Photo.id (g p) = Photo.id p) ->
  fst (persistence.mutateFirst photoId1 f
         (fst (persistence.mutateFirst photoId2 g photos)))
  = fst (persistence.mutateFirst photoId2 g
           (fst (persistence.mutateFirst photoId1 f photos))).
Proof.
  intros Hne Hf Hg. induction photos as [|x rest IH]; [reflexivity|].
  cbn [persistence.mutateFirst].
  destruct (Z.eqb_spec (Photo.id x) photoId2) as [E2|N2];
    destruct (Z.eqb_spec (Photo.id x) photoId1) as [E1|N1].
  - congruence.
  - destruct (persistence.mutateFirst photoId1 f rest) as [r1 u1] eqn:R1.
    cbn [fst persistence.mutateFirst]. rewrite Hg, R1.
    now rewrite (proj2 (Z.eqb_neq _ _) N1), (proj2 (Z.eqb_eq _ _) E2).
  - destruct (persistence.mutateFirst photoId2 g rest) as [r2 u2] eqn:R2.
    cbn [fst persistence.mutateFirst]. rewrite Hf, R2.
    now rewrite (proj2 (Z.eqb_neq _ _) N2), (proj2 (Z.eqb_eq _ _) E1).
  - destruct (persistence.mutateFirst photoId1 f rest) as [r1 u1] eqn:R1.
    destruct (persistence.mutateFirst photoId2 g rest) as [r2 u2] eqn:R2.
    cbn [fst persistence.mutateFirst] in *.
    rewrite (proj2 (Z.eqb_neq _ _) N1), (proj2 (Z.eqb_neq _ _) N2).
    destruct (persistence.mutateFirst photoId1 f r2) as [r12 u12].
    destruct (persistence.mutateFirst photoId2 g r1) as [r21 u21].
    cbn [fst] in *. now rewrite IH.
Qed.

Lemma find_mutateFirst_ne photoId photoId' (mutate : Photo.t -> Photo.t)
    (photos : list Photo.t) :
  photoId <> photoId' ->
  (forall p, Photo.id (mutate p) = Photo.id p) ->
  find (fun p => (Photo.id p =? photoId)%Z)
       (fst (persistence.mutateFirst photoId' mutate photos))
  = find (fun p => (Photo.id p =? photoId)%Z) photos.
Proof.
  intros Hne Hid. induction photos as [|x rest IH]; [reflexivity|].
  cbn [persistence.mutateFirst].
  destruct (Z.eqb_spec (Photo.id x) photoId') as [E|N].
  - cbn [fst find]. rewrite Hid.
    destruct (Z.eqb_spec (Photo.id x) photoId); [congruence | reflexivity].
  - destruct (persistence.mutateFirst photoId' mutate rest) as [r u].
    cbn [fst find] in *.
    destruct (Photo.id x =? photoId)%Z; [reflexivity | exact IH].
Qed.

(** X20. Mutations of photos with different ids are independent: two
    [updatePhotoDetails] calls, and two [addTag] calls, on different
    photo ids leave the same disk in either order, whoever the
    requesters are. *)
Theorem different_photos_commute (toLowerCase : string -> string)
    (d : Disk) (userId1 photoId1 userId2 photoId2 : Z)
    (title1 description1 title2 description2 tag1 tag2 : string) :
  photoId1 <> photoId2 ->
  after (business.updatePhotoDetails userId2 photoId2 title2 description2)
    (after (business.updatePhotoDetails userId1 photoId1
              title1 description1) d)
  = after (business.updatePhotoDetails userId1 photoId1 title1 description1)
      (after (business.updatePhotoDetails userId2 photoId2
                title2 description2) d) /\
  after (business.addTag toLowerCase userId2 photoId2 tag2)
    (after (business.addTag toLowerCase userId1 photoId1 tag1) d)
  = after (business.addTag toLowerCase userId1 photoId1 tag1)
      (after (business.addTag toLowerCase userId2 photoId2 tag2) d).
Proof.
  intros Hne.
  assert (Hne' : photoId2 <> photoId1) by congruence.
  split.
  - rewrite (after_updatePhotoDetails userId1 photoId1 title1 description1 d).
    rewrite (after_updatePhotoDetails userId2 photoId2 title2 description2 d).
    destruct (ownsFirst userId1 photoId1 (PHOTO_FILE d)) eqn:Hgate1;
      destruct (ownsFirst userId2 photoId2 (PHOTO_FILE d)) eqn:Hgate2;
      rewrite ?after_updatePhotoDetails;
      cbn [PHOTO_FILE USER_FILE ALBUM_FILE photoWrites];
      rewrite ?ownsFirst_mutateFirst by (intros []; reflexivity);
      rewrite ?Hgate1, ?Hgate2; try reflexivity.
    f_equal. symmetry.
    apply mutateFirst_commute_ne; [exact Hne | |]; intros []; reflexivity.
  - rewrite (after_addTag toLowerCase userId1 photoId1 tag1 d).
    rewrite (after_addTag toLowerCase userId2 photoId2 tag2 d).
    destruct (ownsFirst userId1 photoId1 (PHOTO_FILE d)
              && negb (includesStr (toLowerCase tag1)
                         (firstTags photoId1 (PHOTO_FILE d)))) eqn:Hgate1;
      destruct (ownsFirst userId2 photoId2 (PHOTO_FILE d)
                && negb (includesStr (toLowerCase tag2)
                           (firstTags photoId2 (PHOTO_FILE d)))) eqn:Hgate2;
      rewrite ?after_addTag;
      cbn [PHOTO_FILE USER_FILE ALBUM_FILE photoWrites];
      unfold ownsFirst, firstTags in *;
      rewrite ?(find_mutateFirst_ne photoId1 photoId2)
        by (try exact Hne; intros []; reflexivity);
      rewrite ?(find_mutateFirst_ne photoId2 photoId1)
        by (try exact Hne'; intros []; reflexivity);
      rewrite ?Hgate1, ?Hgate2; try reflexivity.
    f_equal. symmetry.
    apply mutateFirst_commute_ne; [exact Hne | |]; intros []; reflexivity.
Qed.

Lemma different_photos_commute_witness :
  after (business.updatePhotoDetails 2 8 "Shore" "calm")
    (after (business.updatePhotoDetails 1 7 "New" "desc") demo)
  = after (business.updatePhotoDetails 1 7 "New" "desc")
      (after (business.updatePhotoDetails 2 8 "Shore" "calm") demo) /\
  after (business.addTag ascii_toLowerCase 2 8 "Sea")
    (after (business.addTag ascii_toLowerCase 1 7 "Oak") demo)
  = after (business.addTag ascii_toLowerCase 1 7 "Oak")
      (after (business.addTag ascii_toLowerCase 2 8 "Sea") demo).
Proof.
  apply (different_photos_commute ascii_toLowerCase demo 1 7 2 8
           "New" "desc" "Shore" "calm" "Oak" "Sea").
  discriminate.
Defined.
